(** * nanobind/stl/bind_map.h: bindings for map-style containers

    A shallow embedding of [bind_map<Map>] and of the mapping protocol it
    attaches to a native associative container.  The container itself is a
    template parameter of the source; it is an interface here
    ([NativeMap]), instantiated further down by a model of [std::map]. *)

From Stdlib Require Import ZArith Lia.
From stdpp Require Import base decidable option list gmap strings.

(** ** Native iterators

    A node-based container hands out iterators that designate one node, or
    the past-the-end position.  Keys are unique, so a node is named by its
    key. *)
Inductive iterator (Key : Type) : Type :=
  | It (k : Key)
  | End.
Arguments It {Key} k.
Arguments End {Key}.

#[global] Instance iterator_eq_dec {Key} `{EqDecision Key} :
  EqDecision (iterator Key).
Proof. solve_decision. Defined.

(** ** The container interface ([typename Map])

    [entries] is the begin-to-end traversal of the container, in its native
    order.  The mutators are the ones [bind_map] calls. *)
Class NativeMap (Key Value Map : Type) := {
  entries : Map → list (Key * Value);
  (* Map() *)
  map_ctor : Map;
  (* m.erase(it) *)
  map_erase : Map → iterator Key → Map;
  (* m.emplace(k, v): pair<iterator, bool> *)
  map_emplace : Map → Key → Value → Map * (iterator Key * bool);
  (* m[k]: a reference to the mapped value of the node of k, which is
     created with a default-constructed value when there is none *)
  map_subscript : Map → Key → Map * Key;
  (* r = v, through a reference obtained from m[k] *)
  map_assign : Map → Key → Value → Map
}.

(** [detail::is_copy_assignable_v<Value>], [detail::is_copy_constructible_v<Value>] *)
Class ValueTraits (Value : Type) := {
  is_copy_assignable_v : bool;
  is_copy_constructible_v : bool
}.

(** ** Outcomes of a call *)
Inductive exception :=
  | key_error
  | type_error
  | attribute_error
  | stop_iteration.

#[global] Instance exception_eq_dec : EqDecision exception.
Proof. solve_decision. Defined.

(** [Undefined] is undefined behaviour of the native side: dereferencing or
    erasing an iterator that designates no node, using a dangling
    reference. *)
Inductive outcome (A : Type) : Type :=
  | Ok (a : A)
  | Throw (e : exception)
  | Undefined.
Arguments Ok {A} a.
Arguments Throw {A} e.
Arguments Undefined {A}.

(** ** Programs over a state

    [prog S A] is code that runs against a state [S] and finishes with an
    outcome; the state at the point of a throw is kept. *)
Definition prog (S A : Type) : Type := S → S * outcome A.

Definition ret {S A} (a : A) : prog S A := λ s, (s, Ok a).

Definition throw {S A} (e : exception) : prog S A := λ s, (s, Throw e).

Definition bind {S A B} (c : prog S A) (f : A → prog S B) : prog S B := λ s,
  match c s with
  | (s1, Ok a) => f a s1
  | (s1, Throw e) => (s1, Throw e)
  | (s1, Undefined) => (s1, Undefined)
  end.

Definition map_outcome {A B} (f : A → B) (r : outcome A) : outcome B :=
  match r with
  | Ok a => Ok (f a)
  | Throw e => Throw e
  | Undefined => Undefined
  end.

Notation "x <- c ;; k" := (bind c (λ x, k))
  (at level 100, c at next level, right associativity).
Notation "c ;; k" := (bind c (λ _, k))
  (at level 100, right associativity).

(** The node of a key in a traversal. *)
Fixpoint find_entry {Key Value} `{EqDecision Key} (k : Key)
    (l : list (Key * Value)) : option (Key * Value) :=
  match l with
  | [] => None
  | e :: l' => if decide (e.1 = k) then Some e else find_entry k l'
  end.

(** The iterator to the first node of a traversal. *)
Definition front {Key Value} (l : list (Key * Value)) : iterator Key :=
  match l with
  | [] => End
  | e :: _ => It e.1
  end.

(** What [r = v] does to a node: the node of [r] takes the value [v]. *)
Definition assigned {Key Value} `{EqDecision Key} (r : Key) (v : Value)
    (e : Key * Value) : Key * Value :=
  if decide (e.1 = r) then (e.1, v) else e.

Section bind_map.
Context {Key Value Map : Type} `{EqDecision Key}.
Context `{NativeMap Key Value Map}.
Context `{ValueTraits Value}.

(** *** Queries of the container, read off its traversal *)
Definition map_keys (m : Map) : list Key := (entries m).*1.

Definition lookup_entry (m : Map) (k : Key) : option (Key * Value) :=
  find_entry k (entries m).

Definition map_size (m : Map) : nat := length (entries m).

Definition map_empty (m : Map) : bool :=
  match entries m with [] => true | _ :: _ => false end.

Definition map_begin (m : Map) : iterator Key := front (entries m).

Definition map_end (m : Map) : iterator Key := End.

Definition map_find (m : Map) (k : Key) : iterator Key :=
  if decide (k ∈ map_keys m) then It k else End.

Definition map_deref (m : Map) (it : iterator Key) : option (Key * Value) :=
  match it with
  | It k => lookup_entry m k
  | End => None
  end.

(* ++it *)
Fixpoint successor (k : Key) (l : list (Key * Value)) : option (iterator Key) :=
  match l with
  | [] => None
  | e :: l' =>
      if decide (e.1 = k) then Some (front l') else successor k l'
  end.

Definition map_next (m : Map) (it : iterator Key) : option (iterator Key) :=
  match it with
  | It k => successor k (entries m)
  | End => None
  end.

(** Keys are unique in a container. *)
Definition unique_keys (m : Map) : Prop := NoDup (map_keys m).

(** *** Code that runs against one container

    [Map &m] is the state, together with the record of the native calls made
    on it. *)
Inductive native_call :=
  | call_size
  | call_empty
  | call_begin
  | call_end
  | call_find (k : Key)
  | call_deref (it : iterator Key)
  | call_next (it : iterator Key)
  | call_erase (it : iterator Key)
  | call_emplace (k : Key) (v : Value) (inserted : bool)
  | call_subscript (k : Key)
  | call_assign (r : Key) (v : Value).

Definition cmd (A : Type) : Type := prog (Map * list native_call) A.

(* a native call that only reads the container *)
Definition query {A} (c : native_call) (f : Map → option A) : cmd A := λ s,
  ((s.1, s.2 ++ [c]),
   match f s.1 with Some a => Ok a | None => Undefined end).

Definition size_ : cmd nat := query call_size (λ m, Some (map_size m)).
Definition empty_ : cmd bool := query call_empty (λ m, Some (map_empty m)).
Definition begin_ : cmd (iterator Key) := query call_begin (λ m, Some (map_begin m)).
Definition end_ : cmd (iterator Key) := query call_end (λ m, Some (map_end m)).
Definition find_ (k : Key) : cmd (iterator Key) :=
  query (call_find k) (λ m, Some (map_find m k)).
Definition deref_ (it : iterator Key) : cmd (Key * Value) :=
  query (call_deref it) (λ m, map_deref m it).
Definition next_ (it : iterator Key) : cmd (iterator Key) :=
  query (call_next it) (λ m, map_next m it).

Definition erase_ (it : iterator Key) : cmd unit := λ s,
  match map_deref s.1 it with
  | Some _ => ((map_erase s.1 it, s.2 ++ [call_erase it]), Ok ())
  | None => ((s.1, s.2 ++ [call_erase it]), Undefined)
  end.

Definition emplace_ (k : Key) (v : Value) : cmd (iterator Key * bool) := λ s,
  let r := map_emplace s.1 k v in
  ((r.1, s.2 ++ [call_emplace k v r.2.2]), Ok r.2).

Definition subscript_ (k : Key) : cmd Key := λ s,
  let r := map_subscript s.1 k in
  ((r.1, s.2 ++ [call_subscript k]), Ok r.2).

Definition assign_ (r : Key) (v : Value) : cmd unit := λ s,
  match lookup_entry s.1 r with
  | Some _ => ((map_assign s.1 r v, s.2 ++ [call_assign r v]), Ok ())
  | None => ((s.1, s.2 ++ [call_assign r v]), Undefined)
  end.

(** *** The operations bound on [class_<Map>] that need the container only *)

(* .def("__len__", &Map::size) *)
Definition Map__len__ : cmd nat := size_.

(* [](const Map &m) { return !m.empty(); } *)
Definition Map__bool__ : cmd bool :=
  e <- empty_ ;; ret (negb e).

(* [](const Map &m, const Key &k) { return m.find(k) != m.end(); } *)
Definition Map__contains__ (k : Key) : cmd bool :=
  it <- find_ k ;;
  e <- end_ ;;
  ret (bool_decide (it ≠ e)).

(* [](const Map &, handle) { return false; } *)
Definition Map__contains__fallback {handle : Type} (_ : handle) : cmd bool :=
  ret false.

(* [](Map &m, const Key &k) -> Value & { ... } *)
Definition Map__getitem__ (k : Key) : cmd Value :=
  it <- find_ k ;;
  e <- end_ ;;
  if bool_decide (it = e) then throw key_error
  else
    p <- deref_ it ;;
    ret p.2.

(* [](Map &m, const Key &k) { ... } *)
Definition Map__delitem__ (k : Key) : cmd unit :=
  it <- find_ k ;;
  e <- end_ ;;
  if bool_decide (it = e) then throw key_error
  else erase_ it.

(* [](Map &m, const Key &k, const Value &v) { ... } *)
Definition Map__setitem__ (k : Key) (v : Value) : cmd unit :=
  if is_copy_assignable_v then
    r <- subscript_ k ;;
    assign_ r v
  else
    r <- emplace_ k v ;;
    if negb r.2 then
      erase_ r.1 ;;
      _ <- emplace_ k v ;;
      ret ()
    else ret ().

(* if constexpr (is_copy_assignable_v<Value> || is_copy_constructible_v<Value>) *)
Definition has_setitem : bool :=
  is_copy_assignable_v || is_copy_constructible_v.

(** Running container code on a container, from an empty record. *)
Definition run {A} (c : cmd A) (m : Map) : Map * list native_call * outcome A :=
  c (m, []).
Definition state_of {A} (x : Map * list native_call * outcome A) : Map := x.1.1.
Definition result_of {A} (x : Map * list native_call * outcome A) :
  outcome A := x.2.

(** The states of a container behind the bindings: it is constructed by
    [init<>()], and changes only through the operations bound on it. *)
Inductive request :=
  | req_len
  | req_bool
  | req_contains (k : Key)
  | req_getitem (k : Key)
  | req_delitem (k : Key)
  | req_setitem (k : Key) (v : Value).

Definition serve (r : request) : cmd unit :=
  match r with
  | req_len => _ <- Map__len__ ;; ret ()
  | req_bool => _ <- Map__bool__ ;; ret ()
  | req_contains k => _ <- Map__contains__ k ;; ret ()
  | req_getitem k => _ <- Map__getitem__ k ;; ret ()
  | req_delitem k => Map__delitem__ k
  | req_setitem k v =>
      if has_setitem then Map__setitem__ k v else throw attribute_error
  end.

Inductive Map_reachable : Map → Prop :=
  | reachable_ctor : Map_reachable map_ctor
  | reachable_serve m r :
      Map_reachable m → Map_reachable (state_of (run (serve r) m)).

(** What [__setitem__] is to leave behind, whichever way it goes: [m'] has
    the node [(k, v)], every other node of [m], and nothing else. *)
Definition setitem_post (m : Map) (k : Key) (v : Value) (m' : Map) : Prop :=
  unique_keys m' ∧
  lookup_entry m' k = Some (k, v) ∧
  (∀ k', k' ≠ k → lookup_entry m' k' = lookup_entry m k') ∧
  map_size m' = if decide (k ∈ map_keys m) then map_size m else S (map_size m).
End bind_map.

Arguments cmd : clear implicits.
Arguments native_call : clear implicits.
Arguments request : clear implicits.

(** The native calls that are made on a non-const container to change it. *)
Definition mutates {Key Value} (c : native_call Key Value) : bool :=
  match c with
  | call_erase _ | call_emplace _ _ _ | call_subscript _ | call_assign _ _ => true
  | _ => false
  end.

(** ** What the container guarantees

    The contract of the native calls [bind_map] relies on.  The position a
    new node takes in the traversal is the container's business: only the
    set of nodes is fixed. *)
Class NativeMapLaws (Key Value Map : Type)
    `{EqDecision Key} `{NativeMap Key Value Map} : Prop := {
  entries_ctor : entries map_ctor = [];
  entries_erase m k :
    k ∈ map_keys m →
    entries (map_erase m (It k)) = filter (λ e, e.1 ≠ k) (entries m);
  emplace_present m k v :
    k ∈ map_keys m → map_emplace m k v = (m, (It k, false));
  emplace_absent m k v :
    k ∉ map_keys m →
    (map_emplace m k v).2 = (It k, true) ∧
    entries (map_emplace m k v).1 ≡ₚ (k, v) :: entries m;
  subscript_present m k :
    k ∈ map_keys m → map_subscript m k = (m, k);
  subscript_absent m k :
    k ∉ map_keys m →
    (map_subscript m k).2 = k ∧
    ∃ d, entries (map_subscript m k).1 ≡ₚ (k, d) :: entries m;
  entries_assign m r v :
    r ∈ map_keys m →
    entries (map_assign m r v) = assigned r v <$> entries m
}.

(** ** A model of [std::map<Key, Value>]

    The nodes in the order of the comparison [less]; [dflt] is what
    [Value()] constructs. *)
Section std_map.
Context {Key Value : Type} `{EqDecision Key}.
Context (less : Key → Key → bool) (dflt : Value).

Definition std_map : Type := list (Key * Value).

Fixpoint insert_node (k : Key) (v : Value) (l : std_map) : std_map :=
  match l with
  | [] => [(k, v)]
  | e :: l' => if less k e.1 then (k, v) :: l else e :: insert_node k v l'
  end.

Definition std_map_erase (l : std_map) (it : iterator Key) : std_map :=
  match it with
  | It k => filter (λ e, e.1 ≠ k) l
  | End => l
  end.

Definition std_map_emplace (l : std_map) (k : Key) (v : Value) :
    std_map * (iterator Key * bool) :=
  if decide (k ∈ l.*1) then (l, (It k, false))
  else (insert_node k v l, (It k, true)).

Definition std_map_subscript (l : std_map) (k : Key) : std_map * Key :=
  if decide (k ∈ l.*1) then (l, k) else (insert_node k dflt l, k).

Definition std_map_assign (l : std_map) (r : Key) (v : Value) : std_map :=
  assigned r v <$> l.

Definition std_map_native : NativeMap Key Value std_map := {|
  entries := λ l, l;
  map_ctor := [];
  map_erase := std_map_erase;
  map_emplace := std_map_emplace;
  map_subscript := std_map_subscript;
  map_assign := std_map_assign
|}.
End std_map.

(** ** The foreign runtime

    Objects live in a heap and are passed by reference.  A native [Map &] is
    the address of the instance that holds the container. *)
Abbreviation loc := nat (only parsing).

(* struct KeyView { Map &map; }; struct ValueView ...; struct ItemView ... *)
Inductive view := KeyView | ValueView | ItemView.

#[global] Instance view_eq_dec : EqDecision view.
Proof. solve_decision. Defined.

(* make_key_iterator, make_value_iterator, make_iterator *)
Inductive access := keys_only | values_only | whole_entries.

(** Modelled from the spec: the conversion, by the registration mechanism, of
    an object the runtime passes to the native type [T] of a parameter
    ([type_caster<T>::from_python]).  An object is of the native type [T]
    when it converts. *)
Class TypeCaster (handle T : Type) := from_python : handle → option T.

(** Call policies of a binding.  [keep_alive<Nurse, Patient>]: index 0 is the
    return value, index 1 the first argument (the instance). *)
Inductive call_policy :=
  | keep_alive (nurse patient : nat).

Section runtime.
Context {Key Value Map handle : Type} `{EqDecision Key}.
Context `{NativeMap Key Value Map} `{ValueTraits Value}.
Context `{TypeCaster handle Key} `{TypeCaster handle Value}.

(* a native iterator belongs to one container *)
Definition native_iterator : Type := loc * iterator Key.

Inductive object :=
  | Instance_Map (m : Map)
  | Instance_View (cls : view) (map : loc)
  | Instance_Iterator (a : access) (cur stop : native_iterator).

(** [ties] are the keep-alive relations in force, as (nurse, patient). *)
Record heap := Heap {
  objects : gmap nat object;
  next_loc : loc;
  ties : list (loc * loc)
}.

Definition empty_heap : heap := Heap ∅ 0 [].

Inductive retval :=
  | ret_none
  | ret_bool (b : bool)
  | ret_size (n : nat)
  | ret_key (k : Key)
  | ret_value (v : Value)
  | ret_item (k : Key) (v : Value)
  | ret_object (l : loc).

Definition set_object (l : loc) (o : object) (h : heap) : heap :=
  Heap (<[l := o]> (objects h)) (next_loc h) (ties h).

Definition put_object (l : loc) (o : object) : prog heap unit := λ h,
  (set_object l o h, Ok ()).

(* a new instance *)
Definition alloc (o : object) : prog heap loc := λ h,
  (Heap (<[next_loc h := o]> (objects h)) (S (next_loc h)) (ties h),
   Ok (next_loc h)).

(* container code run through a [Map &]; a reference to an instance that is
   gone is dangling *)
Definition on_map {A} (m : loc) (c : cmd Key Value Map A) : prog heap A := λ h,
  match objects h !! m with
  | Some (Instance_Map c0) =>
      let r := run c c0 in
      (set_object m (Instance_Map (state_of r)) h, result_of r)
  | _ => (h, Undefined)
  end.

(* v.map *)
Definition view_map (cls : view) (v : loc) : prog heap loc := λ h,
  match objects h !! v with
  | Some (Instance_View cls' m) =>
      if decide (cls' = cls) then (h, Ok m) else (h, Undefined)
  | _ => (h, Undefined)
  end.

(** Modelled from the spec: the iterator-wrapping facility
    ([nanobind/make_iterator.h] is not part of the sources).  It turns a pair
    of native iterators into a lazy sequence object, in three flavours:
    whole entries, keys only, values only.  The object holds the two
    iterators and nothing else. *)
Definition make_iterator_impl (a : access) (first last : native_iterator) :
    prog heap retval :=
  l <- alloc (Instance_Iterator a first last) ;;
  ret (ret_object l).

Definition make_iterator := make_iterator_impl whole_entries.
Definition make_key_iterator := make_iterator_impl keys_only.
Definition make_value_iterator := make_iterator_impl values_only.

Definition yield (a : access) (e : Key * Value) : retval :=
  match a with
  | keys_only => ret_key e.1
  | values_only => ret_value e.2
  | whole_entries => ret_item e.1 e.2
  end.

(** Modelled from the spec: one step of a lazy sequence.  It is finite and
    single-pass: at the end it signals exhaustion, before the end it
    produces the element under the first iterator and advances it. *)
Definition Iterator__next__ (self : loc) : prog heap retval := λ h,
  match objects h !! self with
  | Some (Instance_Iterator a cur stop) =>
      if decide (cur = stop) then (h, Throw stop_iteration)
      else
        (e <- on_map cur.1 (deref_ cur.2) ;;
         n <- on_map cur.1 (next_ cur.2) ;;
         put_object self (Instance_Iterator a (cur.1, n) stop) ;;
         ret (yield a e)) h
  | _ => (h, Undefined)
  end.

Definition Iterator__iter__ (self : loc) : prog heap retval :=
  ret (ret_object self).

(** *** [class_<Map>]: the operations that create objects *)

(* [](Map &m) { return make_key_iterator(..., m.begin(), m.end()); } *)
Definition Map__iter__ (m : loc) : prog heap retval :=
  b <- on_map m begin_ ;;
  e <- on_map m end_ ;;
  make_key_iterator (m, b) (m, e).

(* [](Map &m) { return new KeyView{m}; } *)
Definition Map_keys (m : loc) : prog heap retval :=
  l <- alloc (Instance_View KeyView m) ;; ret (ret_object l).

(* [](Map &m) { return new ValueView{m}; } *)
Definition Map_values (m : loc) : prog heap retval :=
  l <- alloc (Instance_View ValueView m) ;; ret (ret_object l).

(* [](Map &m) { return new ItemView{m}; } *)
Definition Map_items (m : loc) : prog heap retval :=
  l <- alloc (Instance_View ItemView m) ;; ret (ret_object l).

(** *** [class_<ItemView>] *)

(* [](ItemView &v) { return v.map.size(); } *)
Definition ItemView__len__ (v : loc) : prog heap nat :=
  m <- view_map ItemView v ;;
  on_map m size_.

(* [](ItemView &v) { return make_iterator(..., v.map.begin(), v.map.end()); } *)
Definition ItemView__iter__ (v : loc) : prog heap retval :=
  m <- view_map ItemView v ;;
  b <- on_map m begin_ ;;
  e <- on_map m end_ ;;
  make_iterator (m, b) (m, e).

(** *** [class_<KeyView>] *)

(* [](KeyView &v, const Key &k) { return v.map.find(k) != v.map.end(); } *)
Definition KeyView__contains__ (v : loc) (k : Key) : prog heap bool :=
  m <- view_map KeyView v ;;
  it <- on_map m (find_ k) ;;
  e <- on_map m end_ ;;
  ret (bool_decide (it ≠ e)).

(* [](KeyView &, handle) { return false; } *)
Definition KeyView__contains__fallback (v : loc) (_ : handle) : prog heap bool :=
  ret false.

(* [](KeyView &v) { return v.map.size(); } *)
Definition KeyView__len__ (v : loc) : prog heap nat :=
  m <- view_map KeyView v ;;
  on_map m size_.

(* [](KeyView &v) { return make_key_iterator(..., v.map.begin(), v.map.end()); } *)
Definition KeyView__iter__ (v : loc) : prog heap retval :=
  m <- view_map KeyView v ;;
  b <- on_map m begin_ ;;
  e <- on_map m end_ ;;
  make_key_iterator (m, b) (m, e).

(** *** [class_<ValueView>] *)

(* [](ValueView &v) { return v.map.size(); } *)
Definition ValueView__len__ (v : loc) : prog heap nat :=
  m <- view_map ValueView v ;;
  on_map m size_.

(* [](ValueView &v) { return make_value_iterator(..., v.map.begin(), v.map.end()); } *)
Definition ValueView__iter__ (v : loc) : prog heap retval :=
  m <- view_map ValueView v ;;
  b <- on_map m begin_ ;;
  e <- on_map m end_ ;;
  make_value_iterator (m, b) (m, e).

(** *** Bindings

    [.def(name, f, policies...)]: the arguments the runtime passes are
    converted to the parameter types of [f]; when a conversion fails the
    binding does not apply to the call. *)
Record def := Def {
  def_name : string;
  def_impl : loc → list handle → option (prog heap retval);
  def_policies : list call_policy
}.

Definition no_args (f : prog heap retval) (args : list handle) :
    option (prog heap retval) :=
  match args with
  | [] => Some f
  | _ => None
  end.

(* a parameter [const Key &] *)
Definition key_arg (f : Key → prog heap retval) (args : list handle) :
    option (prog heap retval) :=
  match args with
  | [a] => f <$> from_python a
  | _ => None
  end.

(* a parameter [handle]: any object *)
Definition handle_arg (f : handle → prog heap retval) (args : list handle) :
    option (prog heap retval) :=
  match args with
  | [a] => Some (f a)
  | _ => None
  end.

(* parameters [const Key &, const Value &] *)
Definition key_value_args (f : Key → Value → prog heap retval)
    (args : list handle) : option (prog heap retval) :=
  match args with
  | [a; b] =>
      match from_python a, from_python b with
      | Some k, Some v => Some (f k v)
      | _, _ => None
      end
  | _ => None
  end.

Definition returning {A} (wrap : A → retval) (c : prog heap A) :
    prog heap retval :=
  a <- c ;; ret (wrap a).

(* auto cl = class_<Map>(scope, name, ...) ... ; cl.def(...) *)
Definition Map_defs : list def :=
  [ Def "__len__"
      (λ m, no_args (returning ret_size (on_map m Map__len__))) [];
    Def "__bool__"
      (λ m, no_args (returning ret_bool (on_map m Map__bool__))) [];
    Def "__contains__"
      (λ m, key_arg (λ k, returning ret_bool (on_map m (Map__contains__ k)))) [];
    Def "__contains__"
      (λ m, handle_arg (λ a,
         returning ret_bool (on_map m (Map__contains__fallback a)))) [];
    Def "__iter__"
      (λ m, no_args (Map__iter__ m)) [keep_alive 0 1];
    Def "__getitem__"
      (λ m, key_arg (λ k, returning ret_value (on_map m (Map__getitem__ k)))) [];
    Def "__delitem__"
      (λ m, key_arg (λ k,
         returning (λ _, ret_none) (on_map m (Map__delitem__ k)))) [] ]
  ++ (if has_setitem then
        [ Def "__setitem__"
            (λ m, key_value_args (λ k v,
               returning (λ _, ret_none) (on_map m (Map__setitem__ k v)))) [] ]
      else [])
  ++ [ Def "keys" (λ m, no_args (Map_keys m)) [keep_alive 0 1];
       Def "values" (λ m, no_args (Map_values m)) [keep_alive 0 1];
       Def "items" (λ m, no_args (Map_items m)) [keep_alive 0 1] ].

(* class_<ItemView>(cl, "ItemView") *)
Definition ItemView_defs : list def :=
  [ Def "__len__" (λ v, no_args (returning ret_size (ItemView__len__ v))) [];
    Def "__iter__" (λ v, no_args (ItemView__iter__ v)) [keep_alive 0 1] ].

(* class_<KeyView>(cl, "KeyView") *)
Definition KeyView_defs : list def :=
  [ Def "__contains__"
      (λ v, key_arg (λ k, returning ret_bool (KeyView__contains__ v k))) [];
    Def "__contains__"
      (λ v, handle_arg (λ a,
         returning ret_bool (KeyView__contains__fallback v a))) [];
    Def "__len__" (λ v, no_args (returning ret_size (KeyView__len__ v))) [];
    Def "__iter__" (λ v, no_args (KeyView__iter__ v)) [keep_alive 0 1] ].

(* class_<ValueView>(cl, "ValueView") *)
Definition ValueView_defs : list def :=
  [ Def "__len__" (λ v, no_args (returning ret_size (ValueView__len__ v))) [];
    Def "__iter__" (λ v, no_args (ValueView__iter__ v)) [keep_alive 0 1] ].

(** Modelled from the spec: the class of a lazy sequence, which the
    iterator-wrapping facility registers. *)
Definition Iterator_defs : list def :=
  [ Def "__iter__" (λ i, no_args (Iterator__iter__ i)) [];
    Def "__next__" (λ i, no_args (Iterator__next__ i)) [] ].

Definition class_defs (o : object) : list def :=
  match o with
  | Instance_Map _ => Map_defs
  | Instance_View KeyView _ => KeyView_defs
  | Instance_View ValueView _ => ValueView_defs
  | Instance_View ItemView _ => ItemView_defs
  | Instance_Iterator _ _ _ => Iterator_defs
  end.

(** Modelled from the spec: dispatch of a call by the registration
    mechanism.  The bindings of that name are tried in the order of their
    definition; the first one whose parameters accept the arguments runs. *)
Fixpoint resolve (ds : list def) (name : string) (self : loc)
    (args : list handle) : option (def * prog heap retval) :=
  match ds with
  | [] => None
  | d :: ds' =>
      if decide (def_name d = name) then
        match def_impl d self args with
        | Some c => Some (d, c)
        | None => resolve ds' name self args
        end
      else resolve ds' name self args
  end.

Definition policy_object (i : nat) (self : loc) (r : retval) : option loc :=
  match i with
  | 0 => match r with ret_object l => Some l | _ => None end
  | 1 => Some self
  | _ => None
  end.

(** Modelled from the spec: the lifetime-extension primitive.  It ties the
    lifetime of the patient to that of the nurse. *)
Definition apply_policy (self : loc) (r : retval) (h : heap) (p : call_policy) :
    heap :=
  match p with
  | keep_alive n p =>
      match policy_object n self r, policy_object p self r with
      | Some nurse, Some patient =>
          Heap (objects h) (next_loc h) ((nurse, patient) :: ties h)
      | _, _ => h
      end
  end.

(** Modelled from the spec: a call [self.name(args...)] made by the runtime
    and dispatched by the registration mechanism.  The bindings of the class
    of [self] are searched; an exception of the binding that runs is
    surfaced to the caller; the call policies apply to a call that
    returns. *)
Definition py_call (self : loc) (name : string) (args : list handle) :
    prog heap retval := λ h,
  match objects h !! self with
  | None => (h, Undefined)
  | Some o =>
      if bool_decide (name ∈ def_name <$> class_defs o) then
        match resolve (class_defs o) name self args with
        | Some (d, c) =>
            match c h with
            | (h', Ok r) => (foldl (apply_policy self r) h' (def_policies d), Ok r)
            | other => other
            end
        | None => (h, Throw type_error)
        end
      else (h, Throw attribute_error)
  end.

(* the heap a call leaves, given the binding that ran and how it ended *)
Definition call_heap (self : loc) (d : def) (x : heap * outcome retval) : heap :=
  match x with
  | (h', Ok r) => foldl (apply_policy self r) h' (def_policies d)
  | (h', _) => h'
  end.

(* .def(init<>()) *)
Definition Map__init__ : prog heap loc :=
  alloc (Instance_Map map_ctor).

(** *** What the runtime does with objects *)

(** Modelled from the spec: how the runtime consumes a lazy sequence,
    [__next__] until it signals exhaustion.  [None] when [fuel] steps were
    not enough. *)
Fixpoint consume (fuel : nat) (i : loc) (h : heap) :
    option (heap * outcome (list retval)) :=
  match fuel with
  | 0 => None
  | S fuel' =>
      match py_call i "__next__" [] h with
      | (h1, Ok r) =>
          match consume fuel' i h1 with
          | Some (h2, Ok rs) => Some (h2, Ok (r :: rs))
          | other => other
          end
      | (h1, Throw stop_iteration) => Some (h1, Ok [])
      | (h1, Throw e) => Some (h1, Throw e)
      | (h1, Undefined) => Some (h1, Undefined)
      end
  end.

(** Modelled from the spec: how the runtime iterates an object, [__iter__]
    and then the sequence it returns. *)
Definition iterate (fuel : nat) (x : loc) (h : heap) :
    option (heap * outcome (list retval)) :=
  match py_call x "__iter__" [] h with
  | (h1, Ok (ret_object i)) => consume fuel i h1
  | (h1, Ok _) => Some (h1, Throw type_error)
  | (h1, Throw e) => Some (h1, Throw e)
  | (h1, Undefined) => Some (h1, Undefined)
  end.

Definition allocated (h : heap) (l : loc) : bool :=
  bool_decide (is_Some (objects h !! l)).

(** Modelled from the spec: a keep-alive relation guarantees that the
    patient is not destroyed while the nurse exists. *)
Definition destroyable (h : heap) (l : loc) : bool :=
  allocated h l &&
  forallb (λ t, negb (bool_decide (t.2 = l)) || negb (allocated h t.1)) (ties h).

Definition destroy (l : loc) (h : heap) : option heap :=
  if destroyable h l
  then Some (Heap (delete l (objects h)) (next_loc h) (ties h))
  else None.

(** What can happen to a heap: an instance of the bound class is
    constructed, a bound operation is called and stays within defined
    behaviour, an object is destroyed. *)
Inductive event :=
  | ev_construct
  | ev_call (self : loc) (name : string) (args : list handle)
  | ev_destroy (l : loc).

Definition step (e : event) (h : heap) : option heap :=
  match e with
  | ev_construct => Some (Map__init__ h).1
  | ev_call self name args =>
      match py_call self name args h with
      | (_, Undefined) => None
      | (h', _) => Some h'
      end
  | ev_destroy l => destroy l h
  end.

Inductive reachable : heap → Prop :=
  | reachable_empty : reachable empty_heap
  | reachable_step h e h' : reachable h → step e h = Some h' → reachable h'.

(** What a sequence of events makes of a heap; [None] when one of them
    cannot happen. *)
Fixpoint run_events (es : list event) (h : heap) : option heap :=
  match es with
  | [] => Some h
  | e :: es' =>
      match step e h with
      | Some h' => run_events es' h'
      | None => None
      end
  end.

(** [h'] is [h] with the object at [self], if any, possibly changed and
    with objects added at addresses [h] had not handed out. *)
Definition extends (self : option loc) (h h' : heap) : Prop :=
  next_loc h ≤ next_loc h' ∧
  ∀ l, self ≠ Some l → l < next_loc h → objects h' !! l = objects h !! l.

(** How a call is to treat the heap [h] it starts from, [x] being the heap and
    the outcome it ends with: the objects that were there, the one at
    [except] apart, stay as they are, and an object returned is [self] or
    is new. *)
Definition tidy (self : loc) (except : option loc) (h : heap)
    (x : heap * outcome retval) : Prop :=
  extends except h x.1 ∧
  ∀ l', x.2 = Ok (ret_object l') →
    l' = self ∨ (l' = next_loc h ∧ is_Some (objects x.1 !! l')).

(** The container of the instance at [l]. *)
Definition map_at (h : heap) (l : loc) : option Map :=
  match objects h !! l with
  | Some (Instance_Map m) => Some m
  | _ => None
  end.

(** The Map a view or a lazy sequence refers to. *)
Definition source_of (o : object) : option loc :=
  match o with
  | Instance_Map _ => None
  | Instance_View _ m => Some m
  | Instance_Iterator _ cur _ => Some cur.1
  end.

(** The key a produced element carries, if any. *)
Definition yielded_key (r : retval) : option Key :=
  match r with
  | ret_key k | ret_item k _ => Some k
  | _ => None
  end.

(* keys(), values(), items() *)
Definition accessor (cls : view) : string :=
  match cls with
  | KeyView => "keys"
  | ValueView => "values"
  | ItemView => "items"
  end.

(* what iterating a view of each class produces *)
Definition access_of (cls : view) : access :=
  match cls with
  | KeyView => keys_only
  | ValueView => values_only
  | ItemView => whole_entries
  end.

(** The heap after a call that returned a new object [o] under
    [keep_alive<0, 1>], [patient] being the instance called. *)
Definition after_alloc (h : heap) (o : object) (patient : loc) : heap :=
  Heap (<[next_loc h := o]> (objects h)) (S (next_loc h))
       ((next_loc h, patient) :: ties h).

(** The shape of the heaps the runtime builds: addresses are handed out in
    order, containers have unique keys, and every view and every lazy
    sequence refers to a live Map to which ties lead. *)
Record heap_inv (h : heap) : Prop := {
  inv_fresh l o : objects h !! l = Some o → l < next_loc h;
  inv_unique l m : map_at h l = Some m → unique_keys m;
  inv_view v cls x :
    objects h !! v = Some (Instance_View cls x) →
    is_Some (map_at h x) ∧ (v, x) ∈ ties h;
  inv_iterator i a cur stop :
    objects h !! i = Some (Instance_Iterator a cur stop) →
    is_Some (map_at h cur.1) ∧
    ((i, cur.1) ∈ ties h ∨
     ∃ v cls, (i, v) ∈ ties h ∧
              objects h !! v = Some (Instance_View cls cur.1))
}.

(** A view of class [cls] shows the container [m]: its length is that of
    [m], and iterating it produces the nodes of [m] in their order. *)
Definition reflects (h : heap) (v : loc) (cls : view) (m : Map) : Prop :=
  py_call v "__len__" [] h = (h, Ok (ret_size (map_size m))) ∧
  ∀ fuel, map_size m < fuel →
    ∃ h', iterate fuel v h = Some (h', Ok (yield (access_of cls) <$> entries m)).

(** [kept_alive_by h n p]: a chain of ties of [h] leads from [n] to [p]. *)
Inductive kept_alive_by (h : heap) : loc → loc → Prop :=
  | kept_alive_tie n p : (n, p) ∈ ties h → kept_alive_by h n p
  | kept_alive_chain n x p :
      (n, x) ∈ ties h → kept_alive_by h x p → kept_alive_by h n p.
End runtime.

Arguments object : clear implicits.
Arguments heap : clear implicits.
Arguments retval : clear implicits.
Arguments event : clear implicits.
Arguments def : clear implicits.

(** ** An instantiation: [bind_map<std::map<std::string, int>>] *)
Module demo.

(* the objects of the runtime that matter to the conversions *)
Inductive py_object :=
  | py_int (z : Z)
  | py_str (s : string)
  | py_none.

#[export] Instance caster_string : TypeCaster py_object string := λ o,
  match o with
  | py_str s => Some s
  | _ => None
  end.

(* int is 32 bits wide *)
#[export] Instance caster_int : TypeCaster py_object Z := λ o,
  match o with
  | py_int z =>
      if bool_decide (- 2 ^ 31 ≤ z < 2 ^ 31)%Z then Some z else None
  | _ => None
  end.

Definition string_map : Type := @std_map string Z.

#[export] Instance string_map_native : NativeMap string Z string_map :=
  std_map_native String.ltb 0%Z.

(* int: copy-assignable and copy-constructible *)
Definition int_traits : ValueTraits Z :=
  {| is_copy_assignable_v := true; is_copy_constructible_v := true |}.

(* struct { const int x; }: copy-constructible only *)
Definition const_int_traits : ValueTraits Z :=
  {| is_copy_assignable_v := false; is_copy_constructible_v := true |}.

(* neither *)
Definition no_copy_traits : ValueTraits Z :=
  {| is_copy_assignable_v := false; is_copy_constructible_v := false |}.

Definition map_ab : string_map := [("a", 1%Z); ("b", 2%Z)].

Definition call (self : loc) (name : string) (args : list py_object)
    (h : heap string string_map) : heap string string_map :=
  (py_call (H0:=int_traits) self name args h).1.

(* m = Map(); m["a"] = 1; ks = m.keys(); m["b"] = 2 *)
Definition heap_a : heap string string_map :=
  call 0 "__setitem__" [py_str "a"; py_int 1] (Map__init__ empty_heap).1.
Definition heap_a_keys : heap string string_map := call 0 "keys" [] heap_a.
Definition heap_ab : heap string string_map :=
  call 0 "__setitem__" [py_str "b"; py_int 2] heap_a_keys.


End demo.

(** * Properties *)

(** ** Traversals as association lists *)
Section traversal.
Context {Key Value : Type} `{EqDecision Key}.
Implicit Types (k : Key) (v : Value) (l : list (Key * Value)).

Lemma find_entry_None k l : find_entry k l = None ↔ k ∉ l.*1.
Proof.
  induction l as [|e l IH]; simpl.
  - split; [intros _; apply not_elem_of_nil | done].
  - rewrite not_elem_of_cons. destruct (decide (e.1 = k)) as [<-|Hne].
    + split; [done | intros [? _]; done].
    + rewrite IH. split; [intros ?; split; [congruence | done] | tauto].
Qed.

Lemma find_entry_Some k l e : find_entry k l = Some e → e ∈ l ∧ e.1 = k.
Proof.
  induction l as [|e' l IH]; simpl; [done|].
  destruct (decide (e'.1 = k)) as [Heq|Hne].
  - intros [= <-]. split; [left | done].
  - intros Hf. destruct (IH Hf) as [? ?]. split; [by right | done].
Qed.

Lemma find_entry_is_Some k l : k ∈ l.*1 → ∃ v, find_entry k l = Some (k, v).
Proof.
  intros Hin. destruct (find_entry k l) as [[k' v]|] eqn:Hf.
  - apply find_entry_Some in Hf as [_ Hk]. simpl in Hk. subst. eauto.
  - apply find_entry_None in Hf. done.
Qed.

Lemma find_entry_unique k v l :
  NoDup l.*1 → (k, v) ∈ l → find_entry k l = Some (k, v).
Proof.
  induction l as [|e l IH]; simpl; intros Hnd Hin.
  - by apply elem_of_nil in Hin.
  - apply NoDup_cons in Hnd as [Hfresh Hnd].
    apply elem_of_cons in Hin as [<-|Hin]; simpl.
    + by rewrite decide_True.
    + rewrite decide_False; [by apply IH|].
      intros Heq. apply Hfresh. rewrite Heq.
      apply (list_elem_of_fmap_2 fst) in Hin. done.
Qed.

Lemma find_entry_perm k l l' :
  NoDup l.*1 → l ≡ₚ l' → find_entry k l = find_entry k l'.
Proof.
  intros Hnd Hp.
  assert (NoDup l'.*1) as Hnd' by (by rewrite <- Hp).
  destruct (find_entry k l) as [[k' v]|] eqn:Hf.
  - apply find_entry_Some in Hf as [Hin Hk]. simpl in Hk. subst k'.
    symmetry. apply find_entry_unique; [done | by rewrite <- Hp].
  - symmetry. apply find_entry_None. apply find_entry_None in Hf.
    by rewrite <- Hp.
Qed.

Lemma find_entry_filter_ne k k' l :
  k' ≠ k → find_entry k' (filter (λ e, e.1 ≠ k) l) = find_entry k' l.
Proof.
  intros Hne. induction l as [|e l IH]; [done|].
  rewrite filter_cons. simpl. destruct (decide (e.1 ≠ k)) as [Hk|Hk]; simpl.
  - by rewrite IH.
  - rewrite IH. rewrite decide_False; [done|].
    intros Heq. apply Hk. congruence.
Qed.

Lemma keys_filter_ne k l :
  (filter (λ e : Key * Value, e.1 ≠ k) l).*1 = filter (λ k', k' ≠ k) l.*1.
Proof.
  induction l as [|e l IH]; [done|].
  rewrite fmap_cons, !filter_cons.
  destruct (decide (e.1 ≠ k)); rewrite ?fmap_cons; by rewrite IH.
Qed.

Lemma find_entry_filter_eq k l :
  find_entry k (filter (λ e, e.1 ≠ k) l) = None.
Proof.
  apply find_entry_None. rewrite keys_filter_ne.
  intros Hin. apply list_elem_of_filter in Hin as [? _]. done.
Qed.

Lemma NoDup_keys_filter k l :
  NoDup l.*1 → NoDup (filter (λ e : Key * Value, e.1 ≠ k) l).*1.
Proof. intros. rewrite keys_filter_ne. by apply NoDup_filter. Qed.

Lemma filter_ne_fresh k l :
  k ∉ l.*1 → filter (λ e : Key * Value, e.1 ≠ k) l = l.
Proof.
  induction l as [|e l IH]; [done|].
  rewrite fmap_cons, not_elem_of_cons. intros [Hne Hfresh].
  rewrite filter_cons, decide_True by done. by rewrite IH.
Qed.

Lemma length_filter_ne k l :
  NoDup l.*1 → k ∈ l.*1 →
  S (length (filter (λ e : Key * Value, e.1 ≠ k) l)) = length l.
Proof.
  induction l as [|e l IH]; intros Hnd Hin.
  - by apply elem_of_nil in Hin.
  - rewrite fmap_cons in Hnd, Hin.
    apply NoDup_cons in Hnd as [Hfresh Hnd].
    rewrite filter_cons. destruct (decide (e.1 ≠ k)) as [Hk|Hk].
    + apply elem_of_cons in Hin as [->|Hin]; [done|].
      simpl. by rewrite IH.
    + assert (e.1 = k) as Heq by (destruct (decide (e.1 = k)); tauto).
      subst k. by rewrite filter_ne_fresh.
Qed.

Lemma assigned_key r v (e : Key * Value) : (assigned r v e).1 = e.1.
Proof. unfold assigned. by destruct (decide (e.1 = r)). Qed.

Lemma assigned_eq r v (e : Key * Value) : e.1 = r → assigned r v e = (r, v).
Proof. intros Heq. unfold assigned. rewrite decide_True by done. by rewrite Heq. Qed.

Lemma assigned_ne r v (e : Key * Value) : e.1 ≠ r → assigned r v e = e.
Proof. intros Hne. unfold assigned. by rewrite decide_False. Qed.

Lemma keys_assigned r v l : (assigned r v <$> l).*1 = l.*1.
Proof.
  rewrite <- list_fmap_compose. apply list_fmap_ext.
  intros i e _. apply assigned_key.
Qed.

Lemma find_entry_assigned_eq r v l :
  r ∈ l.*1 → find_entry r (assigned r v <$> l) = Some (r, v).
Proof.
  induction l as [|e l IH]; intros Hin.
  - by apply elem_of_nil in Hin.
  - rewrite !fmap_cons in *. simpl. rewrite assigned_key.
    destruct (decide (e.1 = r)) as [Heq|Hne].
    + by rewrite assigned_eq.
    + apply elem_of_cons in Hin as [?|Hin]; [congruence | by apply IH].
Qed.

Lemma find_entry_assigned_ne r v k l :
  k ≠ r → find_entry k (assigned r v <$> l) = find_entry k l.
Proof.
  intros Hne. induction l as [|e l IH]; [done|].
  rewrite fmap_cons. simpl. rewrite IH, assigned_key.
  destruct (decide (e.1 = k)) as [Heq|?]; [|done].
  rewrite assigned_ne by congruence. done.
Qed.

Lemma find_entry_cons_perm k v k' l l' :
  NoDup l.*1 → k ∉ l.*1 → l' ≡ₚ (k, v) :: l →
  find_entry k' l' = if decide (k' = k) then Some (k, v) else find_entry k' l.
Proof.
  intros Hnd Hfresh Hp.
  assert (NoDup l'.*1) as Hnd'.
  { rewrite Hp, fmap_cons. by apply NoDup_cons. }
  rewrite (find_entry_perm k' l' ((k, v) :: l)) by done.
  simpl. destruct (decide (k = k')) as [->|Hne].
  - by rewrite decide_True.
  - by rewrite decide_False by congruence.
Qed.
End traversal.

(** ** The operations on one container *)
Section container.
Context {Key Value Map : Type} `{EqDecision Key}.
Context `{NativeMap Key Value Map} `{!NativeMapLaws Key Value Map}.
Implicit Types (m : Map) (k : Key) (v : Value).

Lemma lookup_entry_None m k : lookup_entry m k = None ↔ k ∉ map_keys m.
Proof. apply find_entry_None. Qed.

Lemma lookup_entry_present m k :
  k ∈ map_keys m → ∃ v, lookup_entry m k = Some (k, v).
Proof. apply find_entry_is_Some. Qed.

Lemma lookup_entry_key m k e : lookup_entry m k = Some e → e.1 = k ∧ k ∈ map_keys m.
Proof.
  intros Hf. apply find_entry_Some in Hf as [Hin Hk]. split; [done|].
  subst k. by apply (list_elem_of_fmap_2 fst).
Qed.

Lemma map_find_present m k : k ∈ map_keys m → map_find m k = It k.
Proof. intros. unfold map_find. by rewrite decide_True. Qed.

Lemma map_find_absent m k : k ∉ map_keys m → map_find m k = End.
Proof. intros. unfold map_find. by rewrite decide_False. Qed.

Lemma run_len m : run Map__len__ m = ((m, [call_size]), Ok (map_size m)).
Proof. done. Qed.

Lemma run_bool m : run Map__bool__ m = ((m, [call_empty]), Ok (negb (map_empty m))).
Proof. done. Qed.

Lemma run_contains m k :
  run (Map__contains__ k) m =
    ((m, [call_find k; call_end]), Ok (bool_decide (k ∈ map_keys m))).
Proof.
  unfold run, Map__contains__, bind, find_, end_, query, ret. simpl.
  do 2 f_equal. unfold map_find, map_end.
  destruct (decide (k ∈ map_keys m)).
  - by rewrite bool_decide_true, bool_decide_true.
  - by rewrite bool_decide_false, bool_decide_false by (try done; by intros []).
Qed.

Lemma run_getitem_absent m k :
  k ∉ map_keys m →
  run (Map__getitem__ k) m = ((m, [call_find k; call_end]), Throw key_error).
Proof.
  intros Hk. unfold run, Map__getitem__, bind, find_, end_, query, throw. simpl.
  rewrite map_find_absent by done. done.
Qed.

Lemma run_getitem_present m k v :
  lookup_entry m k = Some (k, v) →
  run (Map__getitem__ k) m =
    ((m, [call_find k; call_end; call_deref (It k)]), Ok v).
Proof.
  intros Hk. unfold run, Map__getitem__, bind, find_, end_, deref_, query, ret.
  simpl. rewrite map_find_present by (by eapply lookup_entry_key).
  simpl. by rewrite Hk.
Qed.

Lemma run_delitem_absent m k :
  k ∉ map_keys m →
  run (Map__delitem__ k) m = ((m, [call_find k; call_end]), Throw key_error).
Proof.
  intros Hk. unfold run, Map__delitem__, bind, find_, end_, query, throw. simpl.
  rewrite map_find_absent by done. done.
Qed.

Lemma run_delitem_present m k :
  k ∈ map_keys m →
  run (Map__delitem__ k) m =
    ((map_erase m (It k), [call_find k; call_end; call_erase (It k)]), Ok ()).
Proof.
  intros Hk. unfold run, Map__delitem__, bind, find_, end_, erase_, query. simpl.
  rewrite map_find_present by done. simpl.
  destruct (lookup_entry_present m k Hk) as [v ->]. done.
Qed.

(** Erasing the node of a key that is there. *)
Lemma erase_unique_keys m k :
  unique_keys m → k ∈ map_keys m → unique_keys (map_erase m (It k)).
Proof.
  intros Hnd Hk. unfold unique_keys, map_keys.
  rewrite entries_erase by done. by apply NoDup_keys_filter.
Qed.

Lemma erase_lookup_eq m k :
  k ∈ map_keys m → lookup_entry (map_erase m (It k)) k = None.
Proof.
  intros Hk. unfold lookup_entry. rewrite entries_erase by done.
  apply find_entry_filter_eq.
Qed.

Lemma erase_lookup_ne m k k' :
  k ∈ map_keys m → k' ≠ k →
  lookup_entry (map_erase m (It k)) k' = lookup_entry m k'.
Proof.
  intros Hk Hne. unfold lookup_entry. rewrite entries_erase by done.
  by apply find_entry_filter_ne.
Qed.

Lemma erase_size m k :
  unique_keys m → k ∈ map_keys m →
  S (map_size (map_erase m (It k))) = map_size m.
Proof.
  intros Hnd Hk. unfold map_size. rewrite entries_erase by done.
  by apply length_filter_ne.
Qed.

(** A node added to a container that has none for the key. *)
Lemma added_unique_keys m m' k v :
  unique_keys m → k ∉ map_keys m → entries m' ≡ₚ (k, v) :: entries m →
  unique_keys m'.
Proof.
  intros Hnd Hk Hp. unfold unique_keys, map_keys.
  rewrite Hp, fmap_cons. by apply NoDup_cons.
Qed.

Lemma added_lookup m m' k v k' :
  unique_keys m → k ∉ map_keys m → entries m' ≡ₚ (k, v) :: entries m →
  lookup_entry m' k' = if decide (k' = k) then Some (k, v) else lookup_entry m k'.
Proof. intros. by apply find_entry_cons_perm. Qed.

Lemma added_size m m' k v :
  entries m' ≡ₚ (k, v) :: entries m → map_size m' = S (map_size m).
Proof. intros Hp. unfold map_size. by rewrite Hp. Qed.

Lemma added_keys m m' k v :
  entries m' ≡ₚ (k, v) :: entries m → k ∈ map_keys m'.
Proof. intros Hp. unfold map_keys. rewrite Hp, fmap_cons. left. Qed.

Lemma assign_post m k v :
  unique_keys m → k ∈ map_keys m →
  unique_keys (map_assign m k v) ∧
  lookup_entry (map_assign m k v) k = Some (k, v) ∧
  (∀ k', k' ≠ k → lookup_entry (map_assign m k v) k' = lookup_entry m k') ∧
  map_size (map_assign m k v) = map_size m.
Proof.
  intros Hnd Hk. unfold unique_keys, map_keys, lookup_entry, map_size.
  rewrite entries_assign by done. split_and!.
  - by rewrite keys_assigned.
  - by apply find_entry_assigned_eq.
  - intros k' Hne. by apply find_entry_assigned_ne.
  - by rewrite length_fmap.
Qed.

Context `{ValueTraits Value}.

Lemma run_setitem_assign m k v :
  is_copy_assignable_v = true → unique_keys m →
  ∃ m', run (Map__setitem__ k v) m =
          ((m', [call_subscript k; call_assign k v]), Ok ()) ∧
        setitem_post m k v m'.
Proof.
  intros Ha Hnd. unfold run, Map__setitem__. rewrite Ha.
  unfold bind, subscript_, assign_. simpl.
  destruct (decide (k ∈ map_keys m)) as [Hk|Hk].
  - rewrite subscript_present by done. simpl.
    destruct (lookup_entry_present m k Hk) as [v0 ->].
    eexists; split; [done|].
    destruct (assign_post m k v Hnd Hk) as (? & ? & ? & ?).
    unfold setitem_post. by rewrite decide_True.
  - destruct (subscript_absent m k Hk) as [-> [d Hp]].
    set (m1 := (map_subscript m k).1) in *.
    assert (unique_keys m1) as Hnd1 by (by eapply added_unique_keys).
    assert (k ∈ map_keys m1) as Hk1 by (by eapply added_keys).
    destruct (lookup_entry_present m1 k Hk1) as [v0 ->].
    eexists; split; [done|].
    destruct (assign_post m1 k v Hnd1 Hk1) as (? & ? & Hfr & Hsz).
    unfold setitem_post. rewrite decide_False by done. split_and!; [done..| |].
    + intros k' Hne. rewrite Hfr by done.
      rewrite (added_lookup m m1 k d k') by done. by rewrite decide_False.
    + rewrite Hsz. by eapply added_size.
Qed.

Lemma emplace_post m k v :
  unique_keys m → k ∉ map_keys m →
  (map_emplace m k v).2 = (It k, true) ∧
  setitem_post m k v (map_emplace m k v).1.
Proof.
  intros Hnd Hk. destruct (emplace_absent m k v Hk) as [Hr Hp].
  split; [done|]. unfold setitem_post. rewrite decide_False by done.
  split_and!.
  - by eapply added_unique_keys.
  - rewrite (added_lookup m _ k v k) by done. by rewrite decide_True.
  - intros k' Hne. rewrite (added_lookup m _ k v k') by done.
    by rewrite decide_False.
  - by eapply added_size.
Qed.

Lemma run_setitem_insert m k v :
  is_copy_assignable_v = false → unique_keys m → k ∉ map_keys m →
  run (Map__setitem__ k v) m =
    (((map_emplace m k v).1, [call_emplace k v true]), Ok ()) ∧
  setitem_post m k v (map_emplace m k v).1.
Proof.
  intros Ha Hnd Hk. destruct (emplace_post m k v Hnd Hk) as [Hr Hpost].
  split; [|done]. unfold run, Map__setitem__. rewrite Ha.
  unfold bind, emplace_. simpl. by rewrite Hr.
Qed.

Lemma run_setitem_reconstruct m k v :
  is_copy_assignable_v = false → unique_keys m → k ∈ map_keys m →
  run (Map__setitem__ k v) m =
    (((map_emplace (map_erase m (It k)) k v).1,
      [call_emplace k v false; call_erase (It k); call_emplace k v true]),
     Ok ()) ∧
  setitem_post m k v (map_emplace (map_erase m (It k)) k v).1.
Proof.
  intros Ha Hnd Hk.
  set (m1 := map_erase m (It k)).
  assert (unique_keys m1) as Hnd1 by (by apply erase_unique_keys).
  assert (k ∉ map_keys m1) as Hk1.
  { apply lookup_entry_None. by apply erase_lookup_eq. }
  destruct (emplace_post m1 k v Hnd1 Hk1) as [Hr (Hu & Hl & Hfr & Hsz)].
  split.
  - unfold run, Map__setitem__. rewrite Ha.
    unfold bind, emplace_, erase_. simpl.
    rewrite emplace_present by done. simpl.
    destruct (lookup_entry_present m k Hk) as [v0 ->]. simpl.
    fold m1. by rewrite Hr.
  - unfold setitem_post. rewrite decide_True by done. split_and!; [done..| |].
    + intros k' Hne. rewrite Hfr by done. by apply erase_lookup_ne.
    + rewrite Hsz. rewrite decide_False by done. by apply erase_size.
Qed.

Lemma run_setitem m k v :
  unique_keys m →
  ∃ m' t, run (Map__setitem__ k v) m = ((m', t), Ok ()) ∧ setitem_post m k v m'.
Proof.
  intros Hnd. destruct is_copy_assignable_v eqn:Ha.
  - destruct (run_setitem_assign m k v Ha Hnd) as (m' & ? & ?). eauto.
  - destruct (decide (k ∈ map_keys m)) as [Hk|Hk].
    + destruct (run_setitem_reconstruct m k v Ha Hnd Hk). eauto.
    + destruct (run_setitem_insert m k v Ha Hnd Hk). eauto.
Qed.
End container.

(** ** The model of [std::map] keeps the contract *)
Section std_map_laws.
Context {Key Value : Type} `{EqDecision Key}.
Context (less : Key → Key → bool) (dflt : Value).

Lemma insert_node_perm k v (l : @std_map Key Value) :
  insert_node less k v l ≡ₚ (k, v) :: l.
Proof.
  induction l as [|e l IH]; simpl; [done|].
  destruct (less k e.1); [done|].
  rewrite IH. apply Permutation_swap.
Qed.

Lemma std_map_laws :
  @NativeMapLaws Key Value std_map _ (std_map_native less dflt).
Proof.
  split; simpl.
  - done.
  - done.
  - intros m k v Hk. unfold std_map_emplace. by rewrite decide_True.
  - intros m k v Hk. unfold std_map_emplace.
    rewrite decide_False by done. simpl. split; [done|].
    apply insert_node_perm.
  - intros m k Hk. unfold std_map_subscript. by rewrite decide_True.
  - intros m k Hk. unfold std_map_subscript.
    rewrite decide_False by done. simpl. split; [done|].
    exists dflt. apply insert_node_perm.
  - done.
Qed.
End std_map_laws.

#[export] Instance string_map_laws :
  @NativeMapLaws string Z demo.string_map _ demo.string_map_native :=
  std_map_laws String.ltb 0%Z.

(** ** The mapping protocol on one container *)
Section mapping_protocol.
Context {Key Value Map : Type} `{EqDecision Key}.
Context `{NativeMap Key Value Map} `{!NativeMapLaws Key Value Map}.
Context `{ValueTraits Value}.
Implicit Types (m : Map) (k : Key) (v : Value).

Lemma getitem_result m k :
  result_of (run (Map__getitem__ k) m) =
    match lookup_entry m k with
    | Some e => Ok e.2
    | None => Throw key_error
    end.
Proof.
  destruct (lookup_entry m k) as [[k0 v]|] eqn:Hl.
  - destruct (lookup_entry_key m k _ Hl) as [Hk _]. simpl in Hk. subst k0.
    by rewrite (run_getitem_present m k v).
  - apply lookup_entry_None in Hl. by rewrite run_getitem_absent.
Qed.

Lemma contains_result m k :
  result_of (run (Map__contains__ k) m) =
    Ok (bool_decide (is_Some (lookup_entry m k))).
Proof.
  rewrite run_contains. unfold result_of. simpl. f_equal.
  apply bool_decide_ext. split.
  - intros Hk. destruct (lookup_entry_present m k Hk) as [v ->]. eauto.
  - intros [e He]. by eapply lookup_entry_key.
Qed.




(** C5: for every Map [m] and key [k] that has an entry in [m],
    [__delitem__ k] succeeds, and afterwards [__contains__ k] is false and
    [__len__] is exactly one less than before. *)
Theorem delitem_present m k n :
  unique_keys m →
  k ∈ map_keys m →
  result_of (run Map__len__ m) = Ok n →
  ∃ m' t n',
    run (Map__delitem__ k) m = ((m', t), Ok ()) ∧
    result_of (run (Map__contains__ k) m') = Ok false ∧
    result_of (run Map__len__ m') = Ok n' ∧
    n = S n'.
Proof.
  intros Hnd Hk Hn. rewrite run_len in Hn. injection Hn as <-.
  eexists _, _, _. split; [by apply run_delitem_present|].
  rewrite contains_result, erase_lookup_eq by done. split; [done|].
  rewrite run_len. split; [done|]. by rewrite erase_size.
Qed.

Lemma delitem_frame m k k' :
  k' ≠ k →
  lookup_entry (state_of (run (Map__delitem__ k) m)) k' = lookup_entry m k'.
Proof.
  intros Hne. destruct (decide (k ∈ map_keys m)) as [Hk|Hk].
  - rewrite run_delitem_present by done. by apply erase_lookup_ne.
  - by rewrite run_delitem_absent.
Qed.

Lemma setitem_frame m k v k' :
  unique_keys m → k' ≠ k →
  lookup_entry (state_of (run (Map__setitem__ k v) m)) k' = lookup_entry m k'.
Proof.
  intros Hnd Hne.
  destruct (run_setitem m k v Hnd) as (m' & t & -> & _ & _ & Hfr & _).
  by apply Hfr.
Qed.

(** C9: [__setitem__ k v] and [__delitem__ k] touch the entry of [k] only.
    Every other key [k'] that has an entry in [m] still has one afterwards,
    and [__getitem__ k'] gives what it gave before; under either strategy
    of [__setitem__], and whether [__delitem__] erases or raises. *)
Theorem other_keys_untouched m k v k' :
  unique_keys m → k' ≠ k → k' ∈ map_keys m →
  let after_set := state_of (run (Map__setitem__ k v) m) in
  let after_del := state_of (run (Map__delitem__ k) m) in
  (result_of (run (Map__contains__ k') after_set) = Ok true ∧
   result_of (run (Map__getitem__ k') after_set) =
     result_of (run (Map__getitem__ k') m)) ∧
  (result_of (run (Map__contains__ k') after_del) = Ok true ∧
   result_of (run (Map__getitem__ k') after_del) =
     result_of (run (Map__getitem__ k') m)).
Proof.
  intros Hnd Hne Hk after_set after_del. subst after_set after_del.
  rewrite !contains_result, !getitem_result.
  rewrite setitem_frame, delitem_frame by done.
  destruct (lookup_entry_present m k' Hk) as [v' ->]. done.
Qed.

End mapping_protocol.

Section reachable_containers.
Context {Key Value Map : Type} `{EqDecision Key}.
Context `{NativeMap Key Value Map} `{!NativeMapLaws Key Value Map}.
Context `{ValueTraits Value}.
Implicit Types (m : Map) (k : Key) (v : Value).

(** C3: for every Map [m] and key [k] of the key type that has no entry in
    [m], [__getitem__ k] and [__delitem__ k] both end in [key_error]; the
    container is the one they were given, the only native calls made are
    the lookup and the comparison with [end()], and the exception is the
    outcome of the operation itself: nothing catches it. *)
Theorem absent_key_raises m k :
  k ∉ map_keys m →
  run (Map__getitem__ k) m = ((m, [call_find k; call_end]), Throw key_error) ∧
  run (Map__delitem__ k) m = ((m, [call_find k; call_end]), Throw key_error).
Proof.
  intros Hk.
  split; [by apply run_getitem_absent | by apply run_delitem_absent].
Qed.

Lemma state_bind_query {A} (c : cmd Key Value Map A) m :
  (∀ s, (c s).1.1 = s.1) →
  state_of (run (_ <- c ;; ret ()) m) = m.
Proof.
  intros Hc. unfold run, state_of, bind. specialize (Hc (m, [])).
  destruct (c (m, [])) as [[m1 t1] [a| |]]; simpl in *; done.
Qed.

Lemma serve_unique_keys m r :
  unique_keys m → unique_keys (state_of (run (serve r) m)).
Proof.
  intros Hnd. destruct r as [| |k|k|k|k v]; simpl.
  - by rewrite state_bind_query.
  - by rewrite state_bind_query.
  - rewrite state_bind_query; [done|]. by intros [].
  - rewrite state_bind_query; [done|]. intros [m0 t0].
    unfold Map__getitem__, bind, find_, end_, deref_, query, throw, ret. simpl.
    destruct (bool_decide _); simpl; [done|].
    by destruct (map_deref _ _).
  - destruct (decide (k ∈ map_keys m)) as [Hk|Hk].
    + rewrite run_delitem_present by done. by apply erase_unique_keys.
    + by rewrite run_delitem_absent.
  - destruct has_setitem; [|done].
    by destruct (run_setitem m k v Hnd) as (m' & t & -> & ? & _).
Qed.

Lemma Map_reachable_unique_keys m : Map_reachable m → unique_keys m.
Proof.
  induction 1 as [|m r _ IH].
  - unfold unique_keys, map_keys. rewrite entries_ctor. constructor.
  - by apply serve_unique_keys.
Qed.

(** C7: in every state a Map reaches from its construction through the
    operations bound on it, [__bool__] is true exactly when [__len__] is
    positive. *)
Theorem bool_is_len_positive m :
  Map_reachable m →
  ∃ b n,
    result_of (run Map__bool__ m) = Ok b ∧
    result_of (run Map__len__ m) = Ok n ∧
    b = bool_decide (0 < n).
Proof.
  intros _. eexists _, _. rewrite run_bool, run_len. split_and!; [done..|].
  unfold map_empty, map_size. destruct (entries m); reflexivity.
Qed.
End reachable_containers.

(** ** Calls through the runtime *)
Section runtime_facts.
Context {Key Value Map handle : Type} `{EqDecision Key}.
Context `{NativeMap Key Value Map} `{!NativeMapLaws Key Value Map}.
Context `{ValueTraits Value}.
Context `{TypeCaster handle Key} `{TypeCaster handle Value}.
Implicit Types (m : Map) (k : Key) (v : Value) (h : heap Key Map) (l : nat).

Lemma map_at_Some h l m :
  map_at h l = Some m ↔ objects h !! l = Some (Instance_Map m).
Proof.
  unfold map_at. destruct (objects h !! l) as [[]|]; split; congruence.
Qed.

Lemma set_object_same h l o : objects h !! l = Some o → set_object l o h = h.
Proof.
  intros Hl. destruct h as [os n ts]. unfold set_object. simpl in *.
  f_equal. by apply insert_id.
Qed.

Lemma on_map_run {A} (c : cmd Key Value Map A) h l m :
  map_at h l = Some m →
  on_map l c h =
    (set_object l (Instance_Map (state_of (run c m))) h, result_of (run c m)).
Proof. intros Hm%map_at_Some. unfold on_map. by rewrite Hm. Qed.

Lemma on_map_read {A} (c : cmd Key Value Map A) h l m :
  map_at h l = Some m → state_of (run c m) = m →
  on_map l c h = (h, result_of (run c m)).
Proof.
  intros Hm Hst. rewrite (on_map_run c h l m) by done. rewrite Hst.
  f_equal. apply set_object_same. by apply map_at_Some.
Qed.

Lemma resolve_name ds name self (args : list handle) d
    (c : prog (heap Key Map) (retval Key Value)) :
  resolve ds name self args = Some (d, c) → name ∈ def_name <$> ds.
Proof.
  induction ds as [|d0 ds IH]; cbn [resolve]; [done|].
  rewrite fmap_cons. destruct (decide (def_name d0 = name)) as [<-|Hne].
  - intros _. left.
  - intros Hr. right. by apply IH.
Qed.

Lemma py_call_resolved h self o name (args : list handle) d c :
  objects h !! self = Some o →
  resolve (class_defs o) name self args = Some (d, c) →
  py_call self name args h =
    match c h with
    | (h', Ok r) => (foldl (apply_policy self r) h' (def_policies d), Ok r)
    | other => other
    end.
Proof.
  intros Ho Hr. unfold py_call. rewrite Ho, Hr.
  rewrite bool_decide_true; [done|]. by eapply resolve_name.
Qed.

Lemma returning_read {A} (wrap : A → retval Key Value) (c : prog (heap Key Map) A) h r :
  c h = (h, r) →
  returning wrap c h =
    (h, match r with Ok a => Ok (wrap a) | Throw e => Throw e | Undefined => Undefined end).
Proof. intros Hc. unfold returning, bind. rewrite Hc. by destruct r. Qed.

Lemma py_call_Map_contains h self m (a : handle) :
  map_at h self = Some m →
  py_call self "__contains__" [a] h =
    (h, Ok (ret_bool match from_python a with
                     | Some k => bool_decide (k ∈ map_keys m)
                     | None => false
                     end)).
Proof.
  intros Hm. pose proof (proj1 (map_at_Some _ _ _) Hm) as Ho.
  destruct (from_python a) as [k|] eqn:Ha.
  - erewrite py_call_resolved; [|done|].
    2:{ simpl. unfold Map_defs. destruct has_setitem; simpl; by rewrite Ha. }
    simpl. erewrite returning_read.
    2:{ eapply on_map_read; [done|]. by rewrite run_contains. }
    by rewrite run_contains.
  - erewrite py_call_resolved; [|done|].
    2:{ simpl. unfold Map_defs. destruct has_setitem; simpl; by rewrite Ha. }
    simpl. erewrite returning_read.
    2:{ eapply on_map_read; done. }
    done.
Qed.

Lemma bind_Ok {S A B} (c : prog S A) (f : A → prog S B) s s' a :
  c s = (s', Ok a) → (x <- c ;; f x) s = f a s'.
Proof. intros Hc. unfold bind. by rewrite Hc. Qed.

Lemma view_map_Ok h (view : nat) cls x :
  objects h !! view = Some (Instance_View cls x) →
  view_map cls view h = (h, Ok x).
Proof. intros Hv. unfold view_map. rewrite Hv. by rewrite decide_True. Qed.

Lemma find_is_not_end m k :
  bool_decide (map_find m k ≠ map_end m) = bool_decide (k ∈ map_keys m).
Proof.
  apply bool_decide_ext. unfold map_find, map_end.
  destruct (decide (k ∈ map_keys m)); split; done.
Qed.

Lemma run_KeyView_contains h view self m k :
  objects h !! view = Some (Instance_View KeyView self) →
  map_at h self = Some m →
  KeyView__contains__ view k h = (h, Ok (bool_decide (k ∈ map_keys m))).
Proof.
  intros Hv Hm. unfold KeyView__contains__.
  erewrite bind_Ok by (by apply view_map_Ok).
  erewrite bind_Ok by (by erewrite on_map_read).
  erewrite bind_Ok by (by erewrite on_map_read).
  unfold ret. do 2 f_equal. apply find_is_not_end.
Qed.

Lemma py_call_KeyView_contains h view self m (a : handle) :
  objects h !! view = Some (Instance_View KeyView self) →
  map_at h self = Some m →
  py_call view "__contains__" [a] h =
    (h, Ok (ret_bool match from_python a with
                     | Some k => bool_decide (k ∈ map_keys m)
                     | None => false
                     end)).
Proof.
  intros Hv Hm.
  destruct (from_python a) as [k|] eqn:Ha.
  - erewrite py_call_resolved; [|done|].
    2:{ simpl. by rewrite Ha. }
    simpl. erewrite returning_read by (by eapply run_KeyView_contains).
    done.
  - erewrite py_call_resolved; [|done|].
    2:{ simpl. by rewrite Ha. }
    done.
Qed.

(** C1: [__contains__] is total.  For every Map [m] (the instance at
    [self]) and every object [a] the runtime passes, the call returns a
    boolean and leaves the heap as it was: when [a] converts to the key type,
    as [k], the boolean is true exactly when [m] has an entry with key [k];
    when it does not convert, the boolean is false and no [type_error] is
    raised.  The same call on a KeyView of the Map returns the same
    boolean. *)
Theorem contains_total h self m (a : handle) :
  map_at h self = Some m →
  ∃ b : bool,
    py_call self "__contains__" [a] h = (h, Ok (ret_bool b)) ∧
    (∀ view, objects h !! view = Some (Instance_View KeyView self) →
             py_call view "__contains__" [a] h = (h, Ok (ret_bool b))) ∧
    match from_python a with
    | Some k => b = true ↔ ∃ v, (k, v) ∈ entries m
    | None => b = false
    end.
Proof.
  intros Hm. eexists. split; [by apply py_call_Map_contains|].
  split; [intros view Hv; by eapply py_call_KeyView_contains|].
  destruct (from_python a) as [k|]; [|done].
  rewrite bool_decide_eq_true. unfold map_keys. rewrite list_elem_of_fmap.
  split.
  - intros [[k' v] [-> Hin]]. eauto.
  - intros [v Hin]. by exists (k, v).
Qed.
End runtime_facts.

(** ** Lazy sequences *)
Section traversal_positions.
Context {Key Value : Type} `{EqDecision Key}.
Implicit Types (k : Key) (v : Value) (l : list (Key * Value)).

Lemma find_entry_middle (pre : list (Key * Value)) e suf :
  NoDup (pre ++ e :: suf).*1 → find_entry e.1 (pre ++ e :: suf) = Some e.
Proof.
  intros Hnd. destruct e as [k v]. apply find_entry_unique; [done|].
  apply elem_of_app. right. left.
Qed.

Lemma successor_middle (pre : list (Key * Value)) e suf :
  NoDup (pre ++ e :: suf).*1 → successor e.1 (pre ++ e :: suf) = Some (front suf).
Proof.
  induction pre as [|e' pre IH]; intros Hnd.
  - simpl. by rewrite decide_True.
  - rewrite <- app_comm_cons, fmap_cons in Hnd.
    apply NoDup_cons in Hnd as [Hfresh Hnd].
    rewrite <- app_comm_cons. cbn [successor]. rewrite decide_False; [by apply IH|].
    intros Heq. apply Hfresh. rewrite Heq, fmap_app, fmap_cons.
    apply elem_of_app. right. left.
Qed.
End traversal_positions.

Section iteration.
Context {Key Value Map handle : Type} `{EqDecision Key}.
Context `{NativeMap Key Value Map} `{!NativeMapLaws Key Value Map}.
Context `{ValueTraits Value}.
Context `{TypeCaster handle Key} `{TypeCaster handle Value}.
Implicit Types (m : Map) (k : Key) (v : Value) (h : heap Key Map) (l : nat).

Lemma set_object_set_object h l o o' :
  set_object l o (set_object l o' h) = set_object l o h.
Proof. unfold set_object. simpl. f_equal. apply insert_insert_eq. Qed.

Lemma lookup_set_object h l l' o :
  objects (set_object l o h) !! l' = if decide (l = l') then Some o else objects h !! l'.
Proof. unfold set_object. simpl. apply lookup_insert. Qed.

Lemma map_at_set_object_ne h l l' o :
  l ≠ l' → map_at (set_object l o h) l' = map_at h l'.
Proof. intros Hne. unfold map_at. by rewrite lookup_set_object, decide_False. Qed.

(** One step of a sequence that is not at its end. *)
Lemma next_yields h (i : nat) a x m pre e suf :
  objects h !! i = Some (Instance_Iterator a (x, It e.1) (x, End)) →
  map_at h x = Some m → unique_keys m → entries m = pre ++ e :: suf →
  py_call (handle:=handle) i "__next__" [] h =
    (set_object i (Instance_Iterator a (x, front suf) (x, End)) h, Ok (yield a e)).
Proof.
  intros Hi Hm Hnd Hent.
  erewrite py_call_resolved; [|done|reflexivity]. simpl.
  unfold Iterator__next__. rewrite Hi. rewrite decide_False by congruence.
  simpl.
  erewrite bind_Ok.
  2:{ erewrite on_map_read; [|done|done]. unfold run, deref_, query, result_of.
      simpl. unfold lookup_entry. rewrite Hent, find_entry_middle; [done|].
      by rewrite <- Hent. }
  erewrite bind_Ok.
  2:{ erewrite on_map_read; [|done|done]. unfold run, next_, query, result_of.
      simpl. rewrite Hent, successor_middle; [done|]. by rewrite <- Hent. }
  done.
Qed.

Lemma next_stops h (i : nat) a x :
  objects h !! i = Some (Instance_Iterator a (x, End) (x, End)) →
  py_call (handle:=handle) i "__next__" [] h = (h, Throw stop_iteration).
Proof.
  intros Hi. erewrite py_call_resolved; [|done|reflexivity]. simpl.
  unfold Iterator__next__. rewrite Hi. by rewrite decide_True.
Qed.

(** Consuming a sequence from where it stands yields what is left of the
    traversal, in its order. *)
Lemma consume_rest suf : ∀ h (i : nat) a x m pre fuel,
  objects h !! i = Some (Instance_Iterator a (x, front suf) (x, End)) →
  map_at h x = Some m → unique_keys m → entries m = pre ++ suf →
  length suf < fuel →
  consume (handle:=handle) fuel i h =
    Some (set_object i (Instance_Iterator a (x, End) (x, End)) h,
          Ok (yield a <$> suf)).
Proof.
  induction suf as [|e suf IH]; intros h i a x m pre fuel Hi Hm Hnd Hent Hfuel.
  - destruct fuel as [|fuel]; [simpl in Hfuel; lia|].
    cbn [consume]. rewrite (next_stops h i a x) by done.
    by rewrite set_object_same.
  - destruct fuel as [|fuel]; [simpl in Hfuel; lia|].
    cbn [consume]. erewrite next_yields by done.
    assert (i ≠ x) as Hne.
    { intros ->. apply map_at_Some in Hm. congruence. }
    erewrite (IH _ i a x m (pre ++ [e])).
    + by rewrite set_object_set_object.
    + by rewrite lookup_set_object, decide_True.
    + by rewrite map_at_set_object_ne.
    + done.
    + by rewrite <- app_assoc.
    + simpl in Hfuel. lia.
Qed.
End iteration.

(** ** The heaps the runtime builds *)
Section heap_shape.
Context {Key Value Map : Type} `{EqDecision Key}.
Context `{NativeMap Key Value Map} `{!NativeMapLaws Key Value Map}.
Implicit Types (m : Map) (k : Key) (v : Value) (h : heap Key Map) (l : nat).
Implicit Types (o : object Key Map).

Lemma heap_inv_empty : heap_inv (empty_heap (Key:=Key) (Map:=Map)).
Proof.
  split; unfold map_at; simpl; intros *; rewrite ?lookup_empty; done.
Qed.

Lemma map_at_set_object h l l' o :
  map_at (set_object l o h) l' =
    if decide (l = l') then match o with Instance_Map m => Some m | _ => None end
    else map_at h l'.
Proof.
  unfold map_at. rewrite lookup_set_object. by destruct (decide (l = l')).
Qed.

(* the container of a Map instance changes *)
Lemma heap_inv_set_map h x m m' :
  heap_inv h → map_at h x = Some m → unique_keys m' →
  heap_inv (set_object x (Instance_Map m') h).
Proof.
  intros [Hfr Hun Hvw Hit] Hm Hnd'. apply map_at_Some in Hm as Hx.
  split.
  - intros l o. rewrite lookup_set_object. destruct (decide (x = l)) as [<-|?].
    + intros _. by eapply Hfr.
    + apply Hfr.
  - intros l m0. rewrite map_at_set_object. destruct (decide (x = l)).
    + by intros [= <-].
    + apply Hun.
  - intros v cls y. rewrite lookup_set_object.
    destruct (decide (x = v)); [done|]. intros Hv.
    destruct (Hvw _ _ _ Hv) as [Hy Ht]. split; [|done].
    rewrite map_at_set_object. by destruct (decide (x = y)).
  - intros i a cur stop. rewrite lookup_set_object.
    destruct (decide (x = i)); [done|]. intros Hi.
    destruct (Hit _ _ _ _ Hi) as [Hy Ht]. split.
    + rewrite map_at_set_object. by destruct (decide (x = cur.1)).
    + destruct Ht as [?|(v & cls & ? & Hv)]; [by left|]. right.
      exists v, cls. split; [done|]. rewrite lookup_set_object.
      rewrite decide_False; [done|]. intros <-. congruence.
Qed.

Lemma lookup_after_alloc h o p l :
  objects (after_alloc h o p) !! l =
    if decide (next_loc h = l) then Some o else objects h !! l.
Proof. unfold after_alloc. simpl. apply lookup_insert. Qed.

Lemma map_at_after_alloc h o p l m :
  heap_inv h → map_at h l = Some m → map_at (after_alloc h o p) l = Some m.
Proof.
  intros Hinv Hm. unfold map_at. rewrite lookup_after_alloc.
  rewrite decide_False; [done|]. apply map_at_Some in Hm.
  apply (inv_fresh _ Hinv) in Hm. lia.
Qed.

Lemma lookup_after_alloc_old h o p l o' :
  heap_inv h → objects h !! l = Some o' →
  objects (after_alloc h o p) !! l = Some o'.
Proof.
  intros Hinv Hl. rewrite lookup_after_alloc.
  rewrite decide_False; [done|]. apply (inv_fresh _ Hinv) in Hl. lia.
Qed.

(* a new object that refers to a Map, tied to [p] *)
Lemma heap_inv_after_alloc h o p x :
  heap_inv h →
  source_of o = Some x → is_Some (map_at h x) →
  (p = x ∨ ∃ cls, objects h !! p = Some (Instance_View cls x)) →
  (∀ cls y, o = Instance_View cls y → p = x) →
  heap_inv (after_alloc h o p).
Proof.
  intros Hinv Hsrc [m Hm] Hp Hview.
  pose proof Hinv as [Hfr Hun Hvw Hit]. split.
  - intros l o'. rewrite lookup_after_alloc. simpl.
    destruct (decide (next_loc h = l)) as [<-|?]; [lia|].
    intros Hl%Hfr. lia.
  - intros l m0. unfold map_at. rewrite lookup_after_alloc.
    destruct (decide (next_loc h = l)) as [<-|?].
    + destruct o; [done|congruence..].
    + apply Hun.
  - intros v cls y. rewrite lookup_after_alloc.
    destruct (decide (next_loc h = v)) as [<-|?].
    + intros [= ->]. simpl in Hsrc. injection Hsrc as ->.
      split; [by erewrite map_at_after_alloc|].
      rewrite (Hview _ _ eq_refl). left.
    + intros Hv. destruct (Hvw _ _ _ Hv) as [[m0 Hy] Ht].
      split; [by erewrite map_at_after_alloc|]. by right.
  - intros i a cur stop. rewrite lookup_after_alloc.
    destruct (decide (next_loc h = i)) as [<-|?].
    + intros [= ->]. simpl in Hsrc. injection Hsrc as ->.
      split; [by erewrite map_at_after_alloc|].
      destruct Hp as [->|[cls Hp]]; [left; left|].
      right. exists p, cls. split; [left|].
      by apply lookup_after_alloc_old.
    + intros Hi. destruct (Hit _ _ _ _ Hi) as [[m0 Hy] Ht].
      split; [by erewrite map_at_after_alloc|].
      destruct Ht as [?|(v & cls & ? & Hv)]; [left; by right|].
      right. exists v, cls. split; [by right|]. by apply lookup_after_alloc_old.
Qed.

(* a new Map instance *)
Lemma heap_inv_init h : heap_inv h → heap_inv (Map__init__ h).1.
Proof.
  intros [Hfr Hun Hvw Hit]. unfold Map__init__, alloc. simpl. split; simpl.
  - intros l o. rewrite lookup_insert.
    destruct (decide (next_loc h = l)) as [<-|?]; [lia|].
    intros Hl%Hfr. lia.
  - intros l m. unfold map_at. simpl. rewrite lookup_insert.
    destruct (decide (next_loc h = l)) as [<-|?].
    + intros [= <-]. unfold unique_keys, map_keys. rewrite entries_ctor.
      constructor.
    + apply Hun.
  - intros v cls y. rewrite lookup_insert.
    destruct (decide (next_loc h = v)) as [<-|?]; [done|].
    intros Hv. destruct (Hvw _ _ _ Hv) as [[m0 Hy] Ht]. split; [|done].
    exists m0. unfold map_at in *. simpl. rewrite lookup_insert.
    rewrite decide_False; [done|]. intros <-.
    destruct (objects h !! next_loc h) as [o|] eqn:Ho; [|done].
    apply Hfr in Ho. lia.
  - intros i a cur stop. rewrite lookup_insert.
    destruct (decide (next_loc h = i)) as [<-|?]; [done|].
    intros Hi. destruct (Hit _ _ _ _ Hi) as [[m0 Hy] Ht]. split.
    + exists m0. unfold map_at in *. simpl. rewrite lookup_insert.
      rewrite decide_False; [done|]. intros Heq. rewrite <- Heq in Hy.
      destruct (objects h !! next_loc h) as [o|] eqn:Ho; [|done].
      apply Hfr in Ho. lia.
    + destruct Ht as [?|(v & cls & ? & Hv)]; [by left|]. right.
      exists v, cls. split; [done|]. rewrite lookup_insert.
      rewrite decide_False; [done|]. intros <-. apply Hfr in Hv. lia.
Qed.

(* a lazy sequence advances *)
Lemma heap_inv_advance h i a x c c' stop :
  heap_inv h →
  objects h !! i = Some (Instance_Iterator a (x, c) stop) →
  heap_inv (set_object i (Instance_Iterator a (x, c') stop) h).
Proof.
  intros [Hfr Hun Hvw Hit] Hi.
  assert (∀ l m, map_at h l = Some m →
                 map_at (set_object i (Instance_Iterator a (x, c') stop) h) l = Some m)
    as Hkeep.
  { intros l m Hm. rewrite map_at_set_object. rewrite decide_False; [done|].
    intros <-. apply map_at_Some in Hm. congruence. }
  split.
  - intros l o. rewrite lookup_set_object. destruct (decide (i = l)) as [<-|?].
    + intros _. by eapply Hfr.
    + apply Hfr.
  - intros l m. rewrite map_at_set_object. destruct (decide (i = l)); [done|].
    apply Hun.
  - intros v cls y. rewrite lookup_set_object.
    destruct (decide (i = v)); [done|]. intros Hv.
    destruct (Hvw _ _ _ Hv) as [[m Hy] Ht]. split; [|done]. eauto.
  - intros j b cur stop'. rewrite lookup_set_object.
    destruct (decide (i = j)) as [<-|?].
    + intros [= <- <- <-]. destruct (Hit _ _ _ _ Hi) as [[m Hy] Ht].
      simpl in Hy, Ht. cbn [fst]. split; [eauto|].
      destruct Ht as [?|(v & cls & ? & Hv)]; [by left|]. right.
      exists v, cls. split; [done|]. rewrite lookup_set_object.
      rewrite decide_False; [done|]. intros <-. congruence.
    + intros Hj. destruct (Hit _ _ _ _ Hj) as [[m Hy] Ht]. split; [eauto|].
      destruct Ht as [?|(v & cls & ? & Hv)]; [by left|]. right.
      exists v, cls. split; [done|]. rewrite lookup_set_object.
      rewrite decide_False; [done|]. intros <-. congruence.
Qed.
End heap_shape.

Section heap_steps.
Context {Key Value Map handle : Type} `{EqDecision Key}.
Context `{NativeMap Key Value Map} `{!NativeMapLaws Key Value Map}.
Context `{ValueTraits Value}.
Context `{TypeCaster handle Key} `{TypeCaster handle Value}.
Implicit Types (m : Map) (k : Key) (v : Value) (h : heap Key Map) (l : nat).
Implicit Types (o : object Key Map).

Lemma allocated_true h l : allocated h l = true ↔ is_Some (objects h !! l).
Proof. unfold allocated. apply bool_decide_eq_true. Qed.

Lemma destroyable_spec h l :
  destroyable h l = true →
  is_Some (objects h !! l) ∧
  ∀ n, (n, l) ∈ ties h → objects h !! n = None.
Proof.
  unfold destroyable. intros [Ha Hf]%andb_prop. split.
  - by apply allocated_true.
  - intros n Hin. rewrite forallb_forall in Hf.
    apply list_elem_of_In in Hin. specialize (Hf _ Hin). simpl in Hf.
    rewrite bool_decide_true in Hf by done. simpl in Hf.
    apply negb_true_iff in Hf. destruct (objects h !! n) eqn:Hn; [|done].
    assert (allocated h n = true) by (apply allocated_true; rewrite Hn; eauto).
    congruence.
Qed.

Lemma heap_inv_destroy h l h' :
  heap_inv h → destroy l h = Some h' → heap_inv h'.
Proof.
  intros [Hfr Hun Hvw Hit]. unfold destroy.
  destruct (destroyable h l) eqn:Hd; [|done]. intros [= <-].
  apply destroyable_spec in Hd as [_ Hnurse].
  assert (∀ n x, objects h !! n ≠ None → (n, x) ∈ ties h → x ≠ l) as Hsafe.
  { intros n x Hn Ht ->. by apply Hn, Hnurse. }
  assert (∀ x, x ≠ l →
    map_at (Heap (delete l (objects h)) (next_loc h) (ties h)) x = map_at h x)
    as Hmap.
  { intros x Hx. unfold map_at. simpl. by rewrite lookup_delete_ne. }
  split; simpl.
  - intros l0 o [_ Hl]%lookup_delete_Some. by eapply Hfr.
  - intros l0 m. unfold map_at. simpl.
    destruct (decide (l = l0)) as [<-|?].
    + by rewrite lookup_delete_eq.
    + rewrite lookup_delete_ne by done. apply Hun.
  - intros v cls x [Hne Hv]%lookup_delete_Some.
    destruct (Hvw _ _ _ Hv) as [Hx Ht]. split; [|done].
    rewrite Hmap; [done|]. eapply Hsafe; [|done]. congruence.
  - intros i a cur stop [Hne Hi]%lookup_delete_Some.
    destruct (Hit _ _ _ _ Hi) as [Hx Ht].
    assert (cur.1 ≠ l) as Hcur.
    { destruct Ht as [Ht|(v & cls & Ht & Hv)].
      - eapply Hsafe; [|done]. congruence.
      - destruct (Hvw _ _ _ Hv) as [_ Ht']. eapply Hsafe; [|done]. congruence. }
    split; [by rewrite Hmap|].
    destruct Ht as [?|(v & cls & Ht & Hv)]; [by left|]. right.
    exists v, cls. split; [done|]. rewrite lookup_delete_ne; [done|].
    intros <-. apply (Hsafe i l); [congruence|done|done].
Qed.

(** Which binding a call runs. *)
Lemma resolve_elem (ds : list (def Key Value Map handle)) name self
    (args : list handle) d
    (c : prog (heap Key Map) (retval Key Value)) :
  resolve ds name self args = Some (d, c) →
  d ∈ ds ∧ def_impl d self args = Some c.
Proof.
  induction ds as [|d0 ds IH]; cbn [resolve]; [done|].
  destruct (decide (def_name d0 = name)) as [_|_].
  - destruct (def_impl d0 self args) as [c0|] eqn:Hc.
    + intros [= <- <-]. split; [left | done].
    + intros [? ?]%IH. split; [by right | done].
  - intros [? ?]%IH. split; [by right | done].
Qed.

Lemma no_args_Some (f c : prog (heap Key Map) (retval Key Value))
    (args : list handle) :
  no_args f args = Some c → c = f.
Proof. destruct args; simpl; congruence. Qed.

Lemma key_arg_Some f (c : prog (heap Key Map) (retval Key Value))
    (args : list handle) :
  key_arg f args = Some c → ∃ k, c = f k.
Proof.
  destruct args as [|a [|? ?]]; simpl; try done.
  destruct (from_python a) as [k|]; simpl; [|done]. intros [= <-]. eauto.
Qed.

Lemma handle_arg_Some f (c : prog (heap Key Map) (retval Key Value))
    (args : list handle) :
  handle_arg f args = Some c → ∃ a, c = f a.
Proof.
  destruct args as [|a [|? ?]]; simpl; try done. intros [= <-]. eauto.
Qed.

Lemma key_value_args_Some f (c : prog (heap Key Map) (retval Key Value))
    (args : list handle) :
  key_value_args f args = Some c → ∃ k v, c = f k v.
Proof.
  destruct args as [|a [|b [|? ?]]]; simpl; try done.
  destruct (from_python a) as [k|]; [|done].
  destruct (from_python b) as [v|]; [|done]. intros [= <-]. eauto.
Qed.
End heap_steps.

Section effects.
Context {Key Value Map handle : Type} `{EqDecision Key}.
Context `{NativeMap Key Value Map} `{!NativeMapLaws Key Value Map}.
Context `{ValueTraits Value}.
Context `{TypeCaster handle Key} `{TypeCaster handle Value}.
Implicit Types (m : Map) (k : Key) (v : Value) (h : heap Key Map) (l : nat).
Implicit Types (o : object Key Map).

Lemma returning_eq {A} (wrap : A → retval Key Value)
    (c : prog (heap Key Map) A) h :
  returning wrap c h = ((c h).1, map_outcome wrap (c h).2).
Proof. unfold returning, bind. by destruct (c h) as [h' [a| |]]. Qed.

Lemma on_map_gone {A} (c : cmd Key Value Map A) h l :
  map_at h l = None → on_map l c h = (h, Undefined).
Proof.
  unfold map_at, on_map. by destruct (objects h !! l) as [[]|].
Qed.

(** The container commands keep keys unique. *)
Lemma getitem_state m k : state_of (run (Map__getitem__ k) m) = m.
Proof.
  destruct (lookup_entry m k) as [[k0 v]|] eqn:Hl.
  - destruct (lookup_entry_key m k _ Hl) as [Hk _]. simpl in Hk. subst k0.
    by rewrite (run_getitem_present m k v).
  - apply lookup_entry_None in Hl. by rewrite run_getitem_absent.
Qed.

Lemma delitem_unique_keys m k :
  unique_keys m → unique_keys (state_of (run (Map__delitem__ k) m)).
Proof. apply (serve_unique_keys m (req_delitem k)). Qed.

Lemma setitem_unique_keys m k v :
  unique_keys m → unique_keys (state_of (run (Map__setitem__ k v) m)).
Proof.
  intros Hnd. by destruct (run_setitem m k v Hnd) as (m' & t & -> & ? & _).
Qed.

(** A binding that runs container code on the instance. *)
Lemma heap_inv_on_map {A} (wrap : A → retval Key Value)
    (c : cmd Key Value Map A) h x :
  heap_inv h →
  (∀ m, unique_keys m → unique_keys (state_of (run c m))) →
  heap_inv (returning wrap (on_map x c) h).1.
Proof.
  intros Hinv Hc. rewrite returning_eq. simpl.
  destruct (map_at h x) as [m|] eqn:Hm.
  - rewrite (on_map_run c h x m) by done. simpl.
    eapply heap_inv_set_map; [done..|]. apply Hc. by eapply inv_unique.
  - by rewrite on_map_gone.
Qed.

Lemma on_map_query_state {A} (call : native_call Key Value) (f : Map → option A) h x :
  (on_map x (query call f) h).1 = h.
Proof.
  destruct (map_at h x) as [m|] eqn:Hm.
  - by rewrite (on_map_read _ h x m).
  - by rewrite on_map_gone.
Qed.

Lemma on_map_query_Ok {A} (call : native_call Key Value) (f : Map → option A) h x h' a :
  on_map x (query call f) h = (h', Ok a) →
  h' = h ∧ ∃ m, map_at h x = Some m ∧ f m = Some a.
Proof.
  destruct (map_at h x) as [m|] eqn:Hm.
  - rewrite (on_map_read _ h x m) by done. unfold run, query, result_of. simpl.
    destruct (f m) as [a'|] eqn:Hf; [|done]. intros [= <- <-]. eauto.
  - by rewrite on_map_gone.
Qed.
End effects.

Section calls.
Context {Key Value Map handle : Type} `{EqDecision Key}.
Context `{NativeMap Key Value Map} `{!NativeMapLaws Key Value Map}.
Context `{ValueTraits Value}.
Context `{TypeCaster handle Key} `{TypeCaster handle Value}.
Implicit Types (m : Map) (k : Key) (v : Value) (h : heap Key Map) (l : nat).
Implicit Types (o : object Key Map).

(** The calls that create a view or a lazy sequence. *)
Lemma make_iterator_impl_eq a (first last : native_iterator) h :
  make_iterator_impl (Value:=Value) a first last h =
    (Heap (<[next_loc h := Instance_Iterator a first last]> (objects h))
          (S (next_loc h)) (ties h),
     Ok (ret_object (next_loc h))).
Proof. done. Qed.

Lemma begin_end_on_map h x m (f : native_iterator → native_iterator →
                                  prog (heap Key Map) (retval Key Value)) :
  map_at h x = Some m →
  (b <- on_map (Value:=Value) x begin_ ;;
   e <- on_map (Value:=Value) x end_ ;; f (x, b) (x, e)) h =
    f (x, map_begin m) (x, End) h.
Proof.
  intros Hm.
  erewrite bind_Ok by (by erewrite on_map_read).
  erewrite bind_Ok by (by erewrite on_map_read). done.
Qed.

Lemma py_call_Map_iter h x m :
  map_at h x = Some m →
  py_call (handle:=handle) x "__iter__" [] h =
    (after_alloc h (Instance_Iterator keys_only (x, map_begin m) (x, End)) x,
     Ok (ret_object (next_loc h))).
Proof.
  intros Hm. pose proof (proj1 (map_at_Some _ _ _) Hm) as Ho.
  erewrite py_call_resolved; [|done|].
  2:{ simpl. unfold Map_defs. destruct has_setitem; reflexivity. }
  cbn [def_policies]. unfold Map__iter__.
  erewrite begin_end_on_map by done. done.
Qed.

Lemma py_call_accessor h x m cls :
  map_at h x = Some m →
  py_call (handle:=handle) x (accessor cls) [] h =
    (after_alloc h (Instance_View cls x) x, Ok (ret_object (next_loc h))).
Proof.
  intros Hm. pose proof (proj1 (map_at_Some _ _ _) Hm) as Ho.
  destruct cls; cbn [accessor].
  all: erewrite py_call_resolved; [|done|];
    [|simpl; unfold Map_defs; destruct has_setitem; reflexivity].
  all: done.
Qed.

Lemma py_call_view_len h (view : nat) cls x m :
  objects h !! view = Some (Instance_View cls x) →
  map_at h x = Some m →
  py_call (handle:=handle) view "__len__" [] h = (h, Ok (ret_size (map_size m))).
Proof.
  intros Hv Hm. destruct cls.
  all: erewrite py_call_resolved; [|done|reflexivity].
  all: cbn [def_policies]; rewrite returning_eq;
    unfold KeyView__len__, ValueView__len__, ItemView__len__;
    (erewrite bind_Ok by (by apply view_map_Ok));
    by erewrite on_map_read.
Qed.

Lemma py_call_view_iter h (view : nat) cls x m :
  objects h !! view = Some (Instance_View cls x) →
  map_at h x = Some m →
  py_call (handle:=handle) view "__iter__" [] h =
    (after_alloc h
       (Instance_Iterator (access_of cls) (x, map_begin m) (x, End)) view,
     Ok (ret_object (next_loc h))).
Proof.
  intros Hv Hm. destruct cls.
  all: erewrite py_call_resolved; [|done|reflexivity].
  all: cbn [def_policies];
    unfold KeyView__iter__, ValueView__iter__, ItemView__iter__;
    (erewrite bind_Ok by (by apply view_map_Ok));
    by erewrite begin_end_on_map.
Qed.

(** The calls that change the container. *)
Lemma py_call_setitem h x m (ka va : handle) k v :
  has_setitem = true → map_at h x = Some m →
  from_python ka = Some k → from_python va = Some v →
  py_call x "__setitem__" [ka; va] h =
    (set_object x (Instance_Map (state_of (run (Map__setitem__ k v) m))) h,
     map_outcome (λ _, ret_none) (result_of (run (Map__setitem__ k v) m))).
Proof.
  intros Hs Hm Hk Hv. pose proof (proj1 (map_at_Some _ _ _) Hm) as Ho.
  erewrite py_call_resolved; [|done|].
  2:{ simpl. unfold Map_defs. rewrite Hs. simpl. by rewrite Hk, Hv. }
  cbn [def_policies]. rewrite returning_eq, (on_map_run _ h x m) by done.
  simpl. by destruct (result_of _).
Qed.

Lemma py_call_delitem h x m (ka : handle) k :
  map_at h x = Some m → from_python ka = Some k →
  py_call x "__delitem__" [ka] h =
    (set_object x (Instance_Map (state_of (run (Map__delitem__ k) m))) h,
     map_outcome (λ _, ret_none) (result_of (run (Map__delitem__ k) m))).
Proof.
  intros Hm Hk. pose proof (proj1 (map_at_Some _ _ _) Hm) as Ho.
  erewrite py_call_resolved; [|done|].
  2:{ simpl. unfold Map_defs. destruct has_setitem; simpl; by rewrite Hk. }
  cbn [def_policies]. rewrite returning_eq, (on_map_run _ h x m) by done.
  simpl. by destruct (result_of _).
Qed.
End calls.

Section surfaced.
Context {Key Value Map handle : Type} `{EqDecision Key}.
Context `{NativeMap Key Value Map} `{!NativeMapLaws Key Value Map}.
Context `{ValueTraits Value}.
Context `{TypeCaster handle Key} `{TypeCaster handle Value}.
Implicit Types (m : Map) (k : Key) (v : Value) (h : heap Key Map) (l : nat).

Lemma py_call_getitem h x m (ka : handle) k :
  map_at h x = Some m → from_python ka = Some k →
  py_call x "__getitem__" [ka] h =
    (h, map_outcome ret_value (result_of (run (Map__getitem__ k) m))).
Proof.
  intros Hm Hk. pose proof (proj1 (map_at_Some _ _ _) Hm) as Ho.
  erewrite py_call_resolved; [|done|].
  2:{ simpl. unfold Map_defs. destruct has_setitem; simpl; by rewrite Hk. }
  cbn [def_policies]. rewrite returning_eq.
  rewrite (on_map_read _ h x m) by (done || apply getitem_state).
  simpl. by destruct (result_of _).
Qed.

(** Through the runtime too, the [key_error] of an absent key reaches the
    caller, and the heap is the one before the call. *)
Lemma key_error_reaches_caller h x m (ka : handle) k :
  map_at h x = Some m → from_python ka = Some k → k ∉ map_keys m →
  py_call x "__getitem__" [ka] h = (h, Throw key_error) ∧
  py_call x "__delitem__" [ka] h = (h, Throw key_error).
Proof.
  intros Hm Hk Habs. split.
  - rewrite (py_call_getitem h x m ka k) by done.
    by rewrite run_getitem_absent.
  - rewrite (py_call_delitem h x m ka k) by done.
    rewrite run_delitem_absent by done. simpl.
    rewrite set_object_same; [done|]. by apply map_at_Some.
Qed.
End surfaced.

Section invariant.
Context {Key Value Map handle : Type} `{EqDecision Key}.
Context `{NativeMap Key Value Map} `{!NativeMapLaws Key Value Map}.
Context `{ValueTraits Value}.
Context `{TypeCaster handle Key} `{TypeCaster handle Value}.
Implicit Types (m : Map) (k : Key) (v : Value) (h : heap Key Map) (l : nat).
Implicit Types (o : object Key Map).

Lemma py_call_cases h self name (args : list handle) h' r :
  py_call self name args h = (h', r) →
  h' = h ∨
  ∃ o d c, objects h !! self = Some o ∧ d ∈ class_defs o ∧
           def_impl d self args = Some c ∧ h' = call_heap self d (c h).
Proof.
  unfold py_call. destruct (objects h !! self) as [o|] eqn:Ho.
  2:{ intros [= <- <-]. by left. }
  destruct (bool_decide _).
  2:{ intros [= <- <-]. by left. }
  destruct (resolve _ _ _ _) as [[d c]|] eqn:Hr.
  2:{ intros [= <- <-]. by left. }
  apply resolve_elem in Hr as [Hd Hc]. intros Hcall. right.
  exists o, d, c. split_and!; [done..|]. unfold call_heap.
  destruct (c h) as [h1 [r1| |]]; by injection Hcall as <- <-.
Qed.

Lemma Map_defs_inv h self m d (args : list handle) c :
  heap_inv h → map_at h self = Some m →
  d ∈ Map_defs → def_impl d self args = Some c →
  heap_inv (call_heap self d (c h)).
Proof.
  intros Hinv Hm Hd Hc. unfold Map_defs in Hd.
  assert (∀ A (wrap : A → retval Key Value) (c0 : cmd Key Value Map A) d0,
    def_policies d0 = [] →
    (∀ m, unique_keys m → unique_keys (state_of (run c0 m))) →
    heap_inv (call_heap (handle:=handle) self d0
                (returning wrap (on_map self c0) h))) as Hcmd.
  { intros A wrap c0 d0 Hd0 Hc0.
    pose proof (heap_inv_on_map wrap c0 h self Hinv Hc0).
    unfold call_heap. rewrite Hd0. by destruct (returning _ _ _) as [? [?| |]]. }
  assert (∀ o', source_of o' = Some self →
    heap_inv (after_alloc h o' self)) as Halloc.
  { intros o' Hsrc. eapply heap_inv_after_alloc; eauto. }
  repeat (apply elem_of_app in Hd as [Hd|Hd]);
    [| destruct has_setitem; [|by apply elem_of_nil in Hd] |];
    repeat (apply elem_of_cons in Hd as [->|Hd]);
    try (by apply elem_of_nil in Hd); simpl in Hc.
  - apply no_args_Some in Hc as ->. apply Hcmd; [done|].
    intros m0 ?. by rewrite run_len.
  - apply no_args_Some in Hc as ->. apply Hcmd; [done|].
    intros m0 ?. by rewrite run_bool.
  - apply key_arg_Some in Hc as [k ->]. apply Hcmd; [done|].
    intros m0 ?. by rewrite run_contains.
  - apply handle_arg_Some in Hc as [a ->]. apply Hcmd; [done|]. by intros m0 ?.
  - apply no_args_Some in Hc as ->. unfold Map__iter__.
    erewrite begin_end_on_map by done. by apply Halloc.
  - apply key_arg_Some in Hc as [k ->]. apply Hcmd; [done|].
    intros m0 ?. by rewrite getitem_state.
  - apply key_arg_Some in Hc as [k ->]. apply Hcmd; [done|].
    intros m0 ?. by apply delitem_unique_keys.
  - apply key_value_args_Some in Hc as (k & v & ->). apply Hcmd; [done|].
    intros m0 ?. by apply setitem_unique_keys.
  - apply no_args_Some in Hc as ->. by apply Halloc.
  - apply no_args_Some in Hc as ->. by apply Halloc.
  - apply no_args_Some in Hc as ->. by apply Halloc.
Qed.

Lemma view_defs_inv h (self : nat) cls x d (args : list handle) c :
  heap_inv h → objects h !! self = Some (Instance_View cls x) →
  d ∈ class_defs (Instance_View cls x) → def_impl d self args = Some c →
  heap_inv (call_heap self d (c h)).
Proof.
  intros Hinv Hv Hd Hc.
  destruct (inv_view _ Hinv _ _ _ Hv) as [[m Hm] Ht].
  assert (∀ a c s, heap_inv (after_alloc h (Instance_Iterator a (x, c) (x, s)) self))
    as Halloc.
  { intros a c0 s. eapply heap_inv_after_alloc; eauto. done. }
  destruct cls; simpl in Hd;
    repeat (apply elem_of_cons in Hd as [->|Hd]);
    try (by apply elem_of_nil in Hd); simpl in Hc.
  - apply key_arg_Some in Hc as [k ->]. unfold call_heap. simpl.
    rewrite returning_eq. by erewrite run_KeyView_contains.
  - by apply handle_arg_Some in Hc as [a ->].
  - apply no_args_Some in Hc as ->.
    unfold call_heap. simpl. rewrite returning_eq. unfold KeyView__len__.
    erewrite bind_Ok by (by apply view_map_Ok). by erewrite on_map_read.
  - apply no_args_Some in Hc as ->. unfold KeyView__iter__.
    erewrite bind_Ok by (by apply view_map_Ok).
    erewrite begin_end_on_map by done. apply Halloc.
  - apply no_args_Some in Hc as ->.
    unfold call_heap. simpl. rewrite returning_eq. unfold ValueView__len__.
    erewrite bind_Ok by (by apply view_map_Ok). by erewrite on_map_read.
  - apply no_args_Some in Hc as ->. unfold ValueView__iter__.
    erewrite bind_Ok by (by apply view_map_Ok).
    erewrite begin_end_on_map by done. apply Halloc.
  - apply no_args_Some in Hc as ->.
    unfold call_heap. simpl. rewrite returning_eq. unfold ItemView__len__.
    erewrite bind_Ok by (by apply view_map_Ok). by erewrite on_map_read.
  - apply no_args_Some in Hc as ->. unfold ItemView__iter__.
    erewrite bind_Ok by (by apply view_map_Ok).
    erewrite begin_end_on_map by done. apply Halloc.
Qed.

Lemma Iterator_next_inv h (self : nat) h' r :
  heap_inv h → Iterator__next__ (Value:=Value) self h = (h', r) → heap_inv h'.
Proof.
  intros Hinv. unfold Iterator__next__.
  destruct (objects h !! self) as [[| |a [x c] stop]|] eqn:Hi;
    try (by intros [= <- <-]).
  destruct (decide _); [by intros [= <- <-]|]. cbn [fst snd].
  unfold bind at 1.
  destruct (on_map x (deref_ c) h) as [h1 r1] eqn:Hd1.
  pose proof (on_map_query_state (Value:=Value) (call_deref c) (λ m, map_deref m c) h x) as Hs1.
  unfold deref_ in Hd1. rewrite Hd1 in Hs1. simpl in Hs1. subst h1.
  destruct r1 as [e| |]; try (by intros [= <- <-]).
  unfold bind at 1.
  destruct (on_map x (next_ c) h) as [h2 r2] eqn:Hd2.
  pose proof (on_map_query_state (Value:=Value) (call_next c) (λ m, map_next m c) h x) as Hs2.
  unfold next_ in Hd2. rewrite Hd2 in Hs2. simpl in Hs2. subst h2.
  destruct r2 as [n'| |]; try (by intros [= <- <-]).
  unfold bind, put_object, ret. intros [= <- <-].
  by eapply heap_inv_advance.
Qed.

Lemma Iterator_defs_inv h (self : nat) d (args : list handle) c :
  heap_inv h → d ∈ Iterator_defs → def_impl d self args = Some c →
  heap_inv (call_heap self d (c h)).
Proof.
  intros Hinv Hd Hc. unfold Iterator_defs in Hd.
  repeat (apply elem_of_cons in Hd as [->|Hd]);
    try (by apply elem_of_nil in Hd); simpl in Hc.
  - by apply no_args_Some in Hc as ->.
  - apply no_args_Some in Hc as ->. unfold call_heap. simpl.
    destruct (Iterator__next__ self h) as [h' r] eqn:Hn.
    apply Iterator_next_inv in Hn; [|done]. by destruct r.
Qed.

Lemma py_call_inv h self name (args : list handle) h' r :
  heap_inv h → py_call self name args h = (h', r) → heap_inv h'.
Proof.
  intros Hinv [->|(o & d & c & Ho & Hd & Hc & ->)]%py_call_cases; [done|].
  destruct o as [m|cls x|a cur stop].
  - eapply Map_defs_inv; [done| |done..]. by apply map_at_Some.
  - by eapply view_defs_inv.
  - by eapply Iterator_defs_inv.
Qed.

Lemma step_inv e h h' :
  heap_inv h → step (handle:=handle) e h = Some h' → heap_inv h'.
Proof.
  intros Hinv. destruct e as [|self name args|l]; simpl.
  - intros [= <-]. by apply heap_inv_init.
  - destruct (py_call self name args h) as [h1 r] eqn:Hcall.
    apply py_call_inv in Hcall; [|done].
    destruct r; intros [= <-]; done.
  - by apply heap_inv_destroy.
Qed.

Lemma reachable_inv h : reachable (handle:=handle) h → heap_inv h.
Proof.
  induction 1 as [|h e h' _ IH Hstep].
  - apply heap_inv_empty.
  - by eapply step_inv.
Qed.
End invariant.

(** ** Views and lazy sequences *)
Section views.
Context {Key Value Map handle : Type} `{EqDecision Key}.
Context `{NativeMap Key Value Map} `{!NativeMapLaws Key Value Map}.
Context `{ValueTraits Value}.
Context `{TypeCaster handle Key} `{TypeCaster handle Value}.
Implicit Types (m : Map) (k : Key) (v : Value) (h : heap Key Map) (l : nat).
Implicit Types (o : object Key Map).

Lemma consume_new h o p a x m fuel :
  heap_inv h → map_at h x = Some m → map_size m < fuel →
  o = Instance_Iterator a (x, map_begin m) (x, End) →
  ∃ h', consume (handle:=handle) fuel (next_loc h) (after_alloc h o p) =
          Some (h', Ok (yield a <$> entries m)).
Proof.
  intros Hinv Hm Hfuel ->. eexists.
  eapply (consume_rest (entries m) _ _ a x m []); try done.
  - by rewrite lookup_after_alloc, decide_True.
  - by apply map_at_after_alloc.
  - by eapply inv_unique.
Qed.

Lemma iterate_Map h x m fuel :
  heap_inv h → map_at h x = Some m → map_size m < fuel →
  ∃ h', iterate (handle:=handle) fuel x h =
          Some (h', Ok (ret_key <$> map_keys m)).
Proof.
  intros Hinv Hm Hfuel. unfold iterate. rewrite (py_call_Map_iter h x m) by done.
  edestruct (consume_new h) as [h' ->]; [done..|reflexivity|].
  exists h'. do 3 f_equal. unfold map_keys. by rewrite <- list_fmap_compose.
Qed.

Lemma iterate_view h (view : nat) cls x m fuel :
  heap_inv h → objects h !! view = Some (Instance_View cls x) →
  map_at h x = Some m → map_size m < fuel →
  ∃ h', iterate (handle:=handle) fuel view h =
          Some (h', Ok (yield (access_of cls) <$> entries m)).
Proof.
  intros Hinv Hv Hm Hfuel. unfold iterate.
  rewrite (py_call_view_iter h view cls x m) by done. by eapply consume_new.
Qed.

Lemma view_reflects h (view : nat) cls x m :
  heap_inv h → objects h !! view = Some (Instance_View cls x) →
  map_at h x = Some m → reflects (handle:=handle) h view cls m.
Proof.
  intros Hinv Hv Hm. split.
  - by eapply py_call_view_len.
  - intros fuel Hfuel. by eapply iterate_view.
Qed.

Lemma py_call_Map_len h x m :
  map_at h x = Some m →
  py_call (handle:=handle) x "__len__" [] h = (h, Ok (ret_size (map_size m))).
Proof.
  intros Hm. pose proof (proj1 (map_at_Some _ _ _) Hm) as Ho.
  erewrite py_call_resolved; [|done|].
  2:{ simpl. unfold Map_defs. destruct has_setitem; reflexivity. }
  cbn [def_policies]. rewrite returning_eq. by erewrite on_map_read.
Qed.

(** C6: for a Map [m] with [n] entries ([__len__] returns the number of its
    keys), the keys are pairwise distinct; iterating the Map, and iterating
    the view [keys()] returns, produce exactly these keys in the order of
    the container's traversal; iterating the view [items()] returns produces
    elements whose keys are the same sequence, element for element. *)
Theorem keys_in_native_order h x m fuel :
  reachable (handle:=handle) h → map_at h x = Some m → map_size m < fuel →
  let ks := map_keys m in
  py_call (handle:=handle) x "__len__" [] h = (h, Ok (ret_size (length ks))) ∧
  NoDup ks ∧
  (∃ h', iterate (handle:=handle) fuel x h = Some (h', Ok (ret_key <$> ks))) ∧
  (∃ h1 kv h',
     py_call (handle:=handle) x "keys" [] h = (h1, Ok (ret_object kv)) ∧
     iterate (handle:=handle) fuel kv h1 = Some (h', Ok (ret_key <$> ks))) ∧
  (∃ h1 iv h' its,
     py_call (handle:=handle) x "items" [] h = (h1, Ok (ret_object iv)) ∧
     iterate (handle:=handle) fuel iv h1 = Some (h', Ok its) ∧
     yielded_key <$> its = Some <$> ks).
Proof.
  intros Hinv%reachable_inv Hm Hfuel ks.
  assert (∀ cls, ∃ h1 vw h',
    py_call (handle:=handle) x (accessor cls) [] h = (h1, Ok (ret_object vw)) ∧
    iterate (handle:=handle) fuel vw h1 =
      Some (h', Ok (yield (access_of cls) <$> entries m))) as Hview.
  { intros cls. pose proof (py_call_accessor (handle:=handle) h x m cls Hm) as Hcall.
    pose proof (py_call_inv _ _ _ _ _ _ Hinv Hcall) as Hinv1.
    destruct (iterate_view _ (next_loc h) cls x m fuel Hinv1) as [h' Hit];
      [by rewrite lookup_after_alloc, decide_True
      |by apply map_at_after_alloc|done|].
    eauto. }
  split_and!.
  - rewrite (py_call_Map_len h x m) by done. unfold ks, map_keys, map_size.
    by rewrite length_fmap.
  - by eapply inv_unique.
  - by apply iterate_Map.
  - destruct (Hview KeyView) as (h1 & kv & h' & Hcall & Hit).
    exists h1, kv, h'. split; [done|]. rewrite Hit. unfold ks, map_keys.
    by rewrite <- list_fmap_compose.
  - destruct (Hview ItemView) as (h1 & iv & h' & Hcall & Hit).
    eexists h1, iv, h', _. split_and!; [done..|]. unfold ks, map_keys.
    rewrite <- !list_fmap_compose. done.
Qed.

Lemma tie_protects h (n x : nat) :
  (n, x) ∈ ties h → is_Some (objects h !! n) → destroy x h = None.
Proof.
  intros Ht Hn. unfold destroy.
  destruct (destroyable h x) eqn:Hd; [|done].
  apply destroyable_spec in Hd as [_ Hd]. apply Hd in Ht.
  rewrite Ht in Hn. by destruct Hn.
Qed.

(** C10: in every heap the runtime reaches, every view and every lazy
    sequence that exists refers to a Map that exists, a chain of
    keep-alive ties leads from it to that Map (one tie for a view and for a
    sequence over the Map itself; for a sequence over a view, the tie to the
    view followed by the tie of the view), and the Map cannot be
    destroyed. *)
Theorem derived_objects_keep_map_alive h l o x :
  reachable (handle:=handle) h →
  objects h !! l = Some o → source_of o = Some x →
  kept_alive_by h l x ∧ is_Some (map_at h x) ∧ destroy x h = None.
Proof.
  intros Hinv%reachable_inv Hl Hsrc.
  destruct o as [m|cls y|a cur stop]; simpl in Hsrc; [done|..];
    injection Hsrc as <-.
  - destruct (inv_view _ Hinv _ _ _ Hl) as [Hm Ht]. split_and!; [|done|].
    + by constructor.
    + eapply tie_protects; [done|]. rewrite Hl. eauto.
  - destruct (inv_iterator _ Hinv _ _ _ _ Hl) as [Hm Ht]. split_and!; [|done|].
    + destruct Ht as [Ht|(v & cls & Ht & Hv)]; [by constructor|].
      destruct (inv_view _ Hinv _ _ _ Hv) as [_ Ht'].
      eapply kept_alive_chain; [done|]. by constructor.
    + destruct Ht as [Ht|(v & cls & Ht & Hv)].
      * eapply tie_protects; [done|]. rewrite Hl. eauto.
      * destruct (inv_view _ Hinv _ _ _ Hv) as [_ Ht'].
        eapply tie_protects; [done|]. rewrite Hv. eauto.
Qed.
End views.

(** ** The properties at [bind_map<std::map<std::string, int>>] *)
Section instances.
Import demo.
Local Open Scope Z_scope.

Lemma unique_keys_ab : unique_keys map_ab.
Proof. unfold unique_keys. apply (bool_decide_unpack (NoDup _)). exact I. Defined.


Lemma reachable_heap_ab :
  reachable (handle:=py_object) (H0:=int_traits) heap_ab.
Proof.
  apply (reachable_step heap_a_keys
           (ev_call 0 "__setitem__" [py_str "b"; py_int 2])); [|reflexivity].
  apply (reachable_step heap_a (ev_call 0 "keys" [])); [|reflexivity].
  apply (reachable_step (Map__init__ empty_heap).1
           (ev_call 0 "__setitem__" [py_str "a"; py_int 1])); [|reflexivity].
  apply (reachable_step empty_heap ev_construct); [|reflexivity].
  apply reachable_empty.
Defined.

(** The scenario of the spec: M starts empty, [M["a"] = 1], [del M["a"]]. *)
Example scenario_set_then_delete :
  let m0 : string_map := map_ctor in
  let m1 := state_of (run (Map__setitem__ (H0:=int_traits) "a" 1) m0) in
  let m2 := state_of (run (Map__delitem__ "a") m1) in
  result_of (run Map__len__ m1) = Ok 1%nat ∧
  result_of (run (Map__contains__ "a") m1) = Ok true ∧
  result_of (run (Map__getitem__ "a") m1) = Ok 1 ∧
  result_of (run (Map__delitem__ "a") m1) = Ok () ∧
  result_of (run Map__len__ m2) = Ok 0%nat ∧
  result_of (run (Map__contains__ "a") m2) = Ok false ∧
  result_of (run (Map__getitem__ "a") m2) = Throw key_error.
Proof. repeat split. Qed.

(** The order of the traversal is the container's: [std::map] keeps its
    nodes in key order whatever the order of the insertions. *)
Example native_order_is_key_order :
  let m1 := state_of (run (Map__setitem__ (H0:=int_traits) "b" 2) map_ctor) in
  let m2 := state_of (run (Map__setitem__ (H0:=int_traits) "a" 1) m1) in
  entries (Map:=string_map) m2 = [("a", 1); ("b", 2)].
Proof. reflexivity. Qed.

(** A view created before a mutation shows the entry added after it. *)
Example keys_view_after_mutation :
  snd <$> iterate (H0:=int_traits) (handle:=py_object) 3 1 heap_ab =
    Some (Ok [ret_key "a"; ret_key "b"]) ∧
  (py_call (H0:=int_traits) (handle:=py_object) 1 "__len__" [] heap_a_keys).2 =
    Ok (ret_size 1) ∧
  (py_call (H0:=int_traits) (handle:=py_object) 1 "__len__" [] heap_ab).2 =
    Ok (ret_size 2).
Proof. repeat split. Qed.

(** Without a capability of the Value type there is no [__setitem__]. *)
Example setitem_not_bound :
  (py_call (H0:=no_copy_traits) 0 "__setitem__" [py_str "a"; py_int 1]
     (Map__init__ empty_heap).1).2 = Throw attribute_error.
Proof. reflexivity. Qed.

(** A key of another type is rejected by [__getitem__], not by [__contains__]. *)
Example foreign_key :
  (py_call (H0:=int_traits) 0 "__getitem__" [py_int 7] heap_ab).2 =
    Throw type_error ∧
  (py_call (H0:=int_traits) 0 "__contains__" [py_int 7] heap_ab).2 =
    Ok (ret_bool false).
Proof. split; reflexivity. Qed.

Lemma contains_total_witness :
  map_at heap_ab 0 = Some map_ab ∧
  ∃ b : bool,
    py_call (H0:=int_traits) 0 "__contains__" [py_int 7] heap_ab =
      (heap_ab, Ok (ret_bool b)) ∧
    (∀ view, objects heap_ab !! view = Some (Instance_View KeyView 0) →
             py_call (H0:=int_traits) view "__contains__" [py_int 7] heap_ab =
               (heap_ab, Ok (ret_bool b))) ∧
    b = false.
Proof.
  split; [reflexivity|].
  exact (contains_total (H0:=int_traits) heap_ab 0%nat map_ab (py_int 7) eq_refl).
Defined.


Lemma absent_key_raises_witness :
  ("c" ∉ map_keys map_ab) ∧
  run (Map__getitem__ "c") map_ab =
    ((map_ab, [call_find "c"; call_end]), Throw key_error) ∧
  run (Map__delitem__ "c") map_ab =
    ((map_ab, [call_find "c"; call_end]), Throw key_error).
Proof.
  assert ("c" ∉ map_keys map_ab) as Hc.
  { apply (bool_decide_unpack (_ ∉ _)). exact I. }
  split; [exact Hc|].
  exact (absent_key_raises map_ab "c" Hc).
Defined.


Lemma delitem_present_witness :
  unique_keys map_ab ∧
  "a" ∈ map_keys map_ab ∧
  result_of (run Map__len__ map_ab) = Ok 2%nat ∧
  ∃ m' t n',
    run (Map__delitem__ "a") map_ab = ((m', t), Ok ()) ∧
    result_of (run (Map__contains__ "a") m') = Ok false ∧
    result_of (run Map__len__ m') = Ok n' ∧
    2%nat = S n'.
Proof.
  assert ("a" ∈ map_keys map_ab) as Ha.
  { apply (bool_decide_unpack (_ ∈ _)). exact I. }
  split_and!; [exact unique_keys_ab | exact Ha | reflexivity |].
  exact (delitem_present map_ab "a" 2%nat unique_keys_ab Ha eq_refl).
Defined.

Lemma keys_in_native_order_witness :
  reachable (handle:=py_object) (H0:=int_traits) heap_ab ∧
  map_at heap_ab 0 = Some map_ab ∧
  (map_size map_ab < 3)%nat ∧
  let ks := map_keys map_ab in
  py_call (H0:=int_traits) (handle:=py_object) 0 "__len__" [] heap_ab =
    (heap_ab, Ok (ret_size (length ks))) ∧
  NoDup ks ∧
  (∃ h', iterate (H0:=int_traits) (handle:=py_object) 3 0 heap_ab =
           Some (h', Ok (ret_key <$> ks))) ∧
  (∃ h1 kv h',
     py_call (H0:=int_traits) (handle:=py_object) 0 "keys" [] heap_ab =
       (h1, Ok (ret_object kv)) ∧
     iterate (H0:=int_traits) (handle:=py_object) 3 kv h1 =
       Some (h', Ok (ret_key <$> ks))) ∧
  (∃ h1 iv h' its,
     py_call (H0:=int_traits) (handle:=py_object) 0 "items" [] heap_ab =
       (h1, Ok (ret_object iv)) ∧
     iterate (H0:=int_traits) (handle:=py_object) 3 iv h1 = Some (h', Ok its) ∧
     yielded_key <$> its = Some <$> ks).
Proof.
  split_and!; [exact reachable_heap_ab | reflexivity | exact (le_n 3) |].
  exact (keys_in_native_order (H0:=int_traits) heap_ab 0%nat map_ab 3%nat
           reachable_heap_ab eq_refl (le_n 3)).
Defined.

Lemma bool_is_len_positive_witness :
  Map_reachable (H0:=int_traits) (Map:=string_map) [("a", 1)] ∧
  ∃ b n,
    result_of (run (Map:=string_map) Map__bool__ [("a", 1)]) = Ok b ∧
    result_of (run (Map:=string_map) Map__len__ [("a", 1)]) = Ok n ∧
    b = bool_decide (0 < n)%nat.
Proof.
  assert (Map_reachable (H0:=int_traits) (Map:=string_map) [("a", 1)]) as Hr.
  { exact (reachable_serve (H0:=int_traits) (Map:=string_map) []
             (req_setitem "a" 1) reachable_ctor). }
  split; [exact Hr|].
  exact (bool_is_len_positive (H0:=int_traits) _ Hr).
Defined.

Lemma other_keys_untouched_witness :
  unique_keys map_ab ∧ "b" ≠ "a" ∧ "b" ∈ map_keys map_ab ∧
  let after_set :=
    state_of (run (Map__setitem__ (H0:=const_int_traits) "a" 5) map_ab) in
  let after_del := state_of (run (Map__delitem__ "a") map_ab) in
  (result_of (run (Map__contains__ "b") after_set) = Ok true ∧
   result_of (run (Map__getitem__ "b") after_set) =
     result_of (run (Map__getitem__ "b") map_ab)) ∧
  (result_of (run (Map__contains__ "b") after_del) = Ok true ∧
   result_of (run (Map__getitem__ "b") after_del) =
     result_of (run (Map__getitem__ "b") map_ab)).
Proof.
  assert ("b" ≠ "a") as Hne by discriminate.
  assert ("b" ∈ map_keys map_ab) as Hb.
  { apply (bool_decide_unpack (_ ∈ _)). exact I. }
  split_and!; [exact unique_keys_ab | exact Hne | exact Hb |].
  exact (other_keys_untouched (H0:=const_int_traits) map_ab "a" 5 "b"
           unique_keys_ab Hne Hb).
Defined.

Lemma derived_objects_keep_map_alive_witness :
  reachable (handle:=py_object) (H0:=int_traits) heap_ab ∧
  objects heap_ab !! 1%nat = Some (Instance_View KeyView 0) ∧
  kept_alive_by heap_ab 1 0 ∧ is_Some (map_at heap_ab 0) ∧
  destroy 0 heap_ab = None.
Proof.
  split; [exact reachable_heap_ab|]. split; [reflexivity|].
  exact (derived_objects_keep_map_alive (H0:=int_traits) (handle:=py_object)
           heap_ab 1%nat _ 0%nat reachable_heap_ab eq_refl eq_refl).
Defined.
End instances.

(** * Further properties *)

Section more_traversal.
Context {Key Value : Type} `{EqDecision Key}.
Implicit Types (k : Key) (v : Value) (l : list (Key * Value)).

Lemma NoDup_entries l : NoDup l.*1 → NoDup l.
Proof. apply NoDup_fmap_1. Qed.

(** Traversals with unique keys that agree on every lookup hold the same
    nodes. *)
Lemma same_lookups_perm l1 l2 :
  NoDup l1.*1 → NoDup l2.*1 →
  (∀ k, find_entry k l1 = find_entry k l2) → l1 ≡ₚ l2.
Proof.
  intros Hnd1 Hnd2 Hsame.
  apply NoDup_Permutation; [by apply NoDup_entries..|].
  intros [k v]. split; intros Hin.
  - apply (find_entry_unique k v) in Hin; [|done].
    rewrite Hsame in Hin. by apply find_entry_Some in Hin as [? _].
  - apply (find_entry_unique k v) in Hin; [|done].
    rewrite <- Hsame in Hin. by apply find_entry_Some in Hin as [? _].
Qed.
End more_traversal.

(** ** More on the mapping protocol *)
Section protocol_laws.
Context {Key Value Map : Type} `{EqDecision Key}.
Context `{NativeMap Key Value Map} `{!NativeMapLaws Key Value Map}.
Implicit Types (m : Map) (k : Key) (v : Value).

(** X1: a Map as [init<>()] constructs it is empty. *)
Theorem constructed_map_is_empty k :
  result_of (run Map__len__ (map_ctor (Map:=Map))) = Ok 0 ∧
  result_of (run Map__bool__ (map_ctor (Map:=Map))) = Ok false ∧
  result_of (run (Map__contains__ k) (map_ctor (Map:=Map))) = Ok false ∧
  result_of (run (Map__getitem__ k) (map_ctor (Map:=Map))) = Throw key_error ∧
  result_of (run (Map__delitem__ k) (map_ctor (Map:=Map))) = Throw key_error.
Proof.
  assert (k ∉ map_keys (map_ctor (Map:=Map))) as Hk.
  { unfold map_keys. rewrite entries_ctor. apply not_elem_of_nil. }
  rewrite run_len, run_bool, run_contains, run_getitem_absent,
    run_delitem_absent by done.
  unfold result_of, map_size, map_empty. simpl. rewrite entries_ctor. simpl.
  split_and!; try done. by rewrite bool_decide_false.
Qed.

(** X2: the operations that read make no native call that changes the
    container, and hand back the container they were given. *)
Theorem reading_never_mutates m k :
  let reads (x : Map * list (native_call Key Value)) :=
    x.1 = m ∧ Forall (λ c, mutates c = false) x.2 in
  reads (run Map__len__ m).1 ∧
  reads (run Map__bool__ m).1 ∧
  reads (run (Map__contains__ k) m).1 ∧
  reads (run (Map__getitem__ k) m).1.
Proof.
  intros reads. unfold reads. rewrite run_len, run_bool, run_contains. simpl.
  split_and!; try done; try (by repeat constructor).
  - pose proof (getitem_state m k) as Hs. unfold state_of in Hs. done.
  - destruct (lookup_entry m k) as [[k0 v]|] eqn:Hl.
    + destruct (lookup_entry_key m k _ Hl) as [Hk _]. simpl in Hk. subst k0.
      rewrite (run_getitem_present m k v) by done. by repeat constructor.
    + apply lookup_entry_None in Hl. rewrite run_getitem_absent by done.
      by repeat constructor.
Qed.

(** X3: [__contains__] tells what [__getitem__] and [__delitem__] will do. *)
Theorem contains_predicts_access m k :
  ∃ b : bool,
    result_of (run (Map__contains__ k) m) = Ok b ∧
    (b = true ↔ ∃ v, result_of (run (Map__getitem__ k) m) = Ok v) ∧
    (b = true ↔ result_of (run (Map__delitem__ k) m) = Ok ()) ∧
    (b = false ↔ result_of (run (Map__getitem__ k) m) = Throw key_error) ∧
    (b = false ↔ result_of (run (Map__delitem__ k) m) = Throw key_error).
Proof.
  eexists. rewrite run_contains. split; [done|].
  destruct (decide (k ∈ map_keys m)) as [Hk|Hk].
  - rewrite bool_decide_true by done.
    destruct (lookup_entry_present m k Hk) as [v Hv].
    rewrite (run_getitem_present m k v), run_delitem_present by done.
    unfold result_of. simpl. split_and!; split; try done; eauto.
  - rewrite bool_decide_false by done.
    rewrite run_getitem_absent, run_delitem_absent by done.
    unfold result_of. simpl. split_and!; split; try done.
    by intros [? ?].
Qed.

(** Containers that hold the same nodes. *)
Lemma same_lookups_entries m1 m2 :
  unique_keys m1 → unique_keys m2 →
  (∀ k, lookup_entry m1 k = lookup_entry m2 k) → entries m1 ≡ₚ entries m2.
Proof. apply same_lookups_perm. Qed.

(** X4: every entry the traversal shows can be read back by its key. *)
Theorem entries_read_back m k v :
  unique_keys m → (k, v) ∈ entries m →
  result_of (run (Map__contains__ k) m) = Ok true ∧
  result_of (run (Map__getitem__ k) m) = Ok v.
Proof.
  intros Hnd Hin.
  assert (lookup_entry m k = Some (k, v)) as Hl by (by apply find_entry_unique).
  rewrite contains_result, getitem_result, Hl. done.
Qed.

(** X5: inserting a key that is new and deleting it again gives back a
    container with the nodes it had. *)
Theorem set_then_delete_restores `{ValueTraits Value} m k v :
  unique_keys m → k ∉ map_keys m →
  ∃ m1 t1 m2 t2,
    run (Map__setitem__ k v) m = ((m1, t1), Ok ()) ∧
    run (Map__delitem__ k) m1 = ((m2, t2), Ok ()) ∧
    entries m2 ≡ₚ entries m.
Proof.
  intros Hnd Hk.
  destruct (run_setitem m k v Hnd) as (m1 & t1 & Hrun & Hu & Hl & Hfr & _).
  assert (k ∈ map_keys m1) as Hk1 by (by eapply lookup_entry_key).
  eexists m1, t1, _, _. split; [done|]. split; [by apply run_delitem_present|].
  apply same_lookups_entries; [by apply erase_unique_keys | done |].
  intros k'. destruct (decide (k' = k)) as [->|Hne].
  - rewrite erase_lookup_eq by done. symmetry. by apply lookup_entry_None.
  - rewrite erase_lookup_ne by done. by apply Hfr.
Qed.

(** X6: a key deleted is gone: deleting it again, or reading it, raises and
    changes nothing. *)
Theorem delete_is_final m k :
  unique_keys m → k ∈ map_keys m →
  ∃ m' t,
    run (Map__delitem__ k) m = ((m', t), Ok ()) ∧
    run (Map__delitem__ k) m' =
      ((m', [call_find k; call_end]), Throw key_error) ∧
    run (Map__getitem__ k) m' =
      ((m', [call_find k; call_end]), Throw key_error).
Proof.
  intros Hnd Hk. eexists _, _. split; [by apply run_delitem_present|].
  assert (k ∉ map_keys (map_erase m (It k))) as Hgone.
  { apply lookup_entry_None. by apply erase_lookup_eq. }
  split; [by apply run_delitem_absent | by apply run_getitem_absent].
Qed.


(** X8: the native calls [__setitem__] makes.  A node is erased only when
    the Value type cannot be assigned and the key is there; a key that is
    new costs one [emplace]. *)
Theorem setitem_native_calls `{ValueTraits Value} m k v :
  unique_keys m →
  (run (Map__setitem__ k v) m).1.2 =
    if is_copy_assignable_v then [call_subscript k; call_assign k v]
    else if decide (k ∈ map_keys m)
         then [call_emplace k v false; call_erase (It k); call_emplace k v true]
         else [call_emplace k v true].
Proof.
  intros Hnd. destruct is_copy_assignable_v eqn:Ha.
  - by destruct (run_setitem_assign m k v Ha Hnd) as (m' & -> & _).
  - destruct (decide (k ∈ map_keys m)) as [Hk|Hk].
    + by destruct (run_setitem_reconstruct m k v Ha Hnd Hk) as [-> _].
    + by destruct (run_setitem_insert m k v Ha Hnd Hk) as [-> _].
Qed.


(** X10: writes to different keys commute. *)
Theorem writes_commute `{ValueTraits Value} m k1 v1 k2 v2 :
  unique_keys m → k1 ≠ k2 →
  entries (state_of (run (Map__setitem__ k2 v2)
                       (state_of (run (Map__setitem__ k1 v1) m)))) ≡ₚ
  entries (state_of (run (Map__setitem__ k1 v1)
                       (state_of (run (Map__setitem__ k2 v2) m)))).
Proof.
  intros Hnd Hne.
  destruct (run_setitem m k1 v1 Hnd) as (ma & ta & -> & Hua & Hla & Hfa & _).
  destruct (run_setitem m k2 v2 Hnd) as (mb & tb & -> & Hub & Hlb & Hfb & _).
  unfold state_of at 2 4. simpl.
  destruct (run_setitem ma k2 v2 Hua) as (mab & tab & -> & Huab & Hlab & Hfab & _).
  destruct (run_setitem mb k1 v1 Hub) as (mba & tba & -> & Huba & Hlba & Hfba & _).
  unfold state_of. simpl.
  apply same_lookups_entries; [done..|]. intros k'.
  destruct (decide (k' = k2)) as [->|Hne2].
  - rewrite Hlab, Hfba by done. by rewrite Hlb.
  - rewrite Hfab by done. destruct (decide (k' = k1)) as [->|Hne1].
    + by rewrite Hla, Hlba.
    + by rewrite Hfa, Hfba, Hfb.
Qed.

(** X12: whatever is done through the bindings, the keys of the container
    stay pairwise distinct, and [__len__] counts them. *)
Theorem keys_stay_unique `{ValueTraits Value} m :
  Map_reachable m →
  NoDup (map_keys m) ∧
  result_of (run Map__len__ m) = Ok (length (map_keys m)).
Proof.
  intros Hr. split; [by apply Map_reachable_unique_keys|].
  rewrite run_len. unfold result_of, map_size, map_keys. simpl.
  by rewrite length_fmap.
Qed.
End protocol_laws.

(** ** What a call leaves alone *)
Section frame.
Context {Key Value Map handle : Type} `{EqDecision Key}.
Context `{NativeMap Key Value Map} `{!NativeMapLaws Key Value Map}.
Context `{ValueTraits Value}.
Context `{TypeCaster handle Key} `{TypeCaster handle Value}.
Implicit Types (m : Map) (k : Key) (v : Value) (h : heap Key Map) (l : nat).
Implicit Types (o : object Key Map).

Lemma extends_refl self h : extends self h h.
Proof. by split. Qed.

Lemma extends_weaken self h h' : extends None h h' → extends self h h'.
Proof. intros [Hn Ho]. split; [done|]. intros l _. by apply Ho. Qed.

Lemma unallocated_next_loc h : heap_inv h → objects h !! next_loc h = None.
Proof.
  intros Hinv. destruct (objects h !! next_loc h) as [o|] eqn:Ho; [|done].
  apply (inv_fresh _ Hinv) in Ho. lia.
Qed.

Lemma objects_call_heap (self : nat) (d : def Key Value Map handle) h' r :
  objects (call_heap self d (h', r)) = objects h' ∧
  next_loc (call_heap self d (h', r)) = next_loc h'.
Proof.
  unfold call_heap. destruct r as [r| |]; [|done..].
  induction (def_policies d) as [|p ps IH] in h' |- *; [done|].
  simpl. destruct (IH (apply_policy self r h' p)) as [-> ->].
  destruct p as [n p]. unfold apply_policy.
  by destruct (policy_object n self r), (policy_object p self r).
Qed.

Lemma extends_on_map {A} (c : cmd Key Value Map A) h x :
  extends (Some x) h (on_map x c h).1.
Proof.
  unfold on_map. destruct (objects h !! x) as [[m| |]|];
    try apply extends_refl.
  split; [done|]. intros l Hne _. simpl. rewrite lookup_insert_ne; [done|].
  congruence.
Qed.

Lemma extends_alloc o h : extends None h (alloc o h).1.
Proof.
  split; simpl; [lia|]. intros l _ Hl. rewrite lookup_insert_ne; [done|]. lia.
Qed.

Lemma tidy_weaken self h (x : heap Key Map * outcome (retval Key Value)) :
  tidy self None h x → tidy self (Some self) h x.
Proof. intros [? ?]. split; [by apply extends_weaken | done]. Qed.

Lemma tidy_alloc self o h :
  tidy self None h ((l <- alloc o ;; ret (ret_object (Key:=Key) (Value:=Value) l)) h).
Proof.
  split; [apply extends_alloc|]. simpl. intros l' [= <-]. right.
  split; [done|]. rewrite lookup_insert_eq. eauto.
Qed.

Lemma tidy_returning {A} (wrap : A → retval Key Value)
    (c : prog (heap Key Map) A) self except h :
  (∀ a l', wrap a ≠ ret_object l') →
  extends except h (c h).1 →
  tidy self except h (returning wrap c h).
Proof.
  intros Hw Hc. rewrite returning_eq. split; [done|]. simpl.
  intros l'. destruct (c h).2; simpl; [|done..]. intros [= Heq].
  by apply Hw in Heq.
Qed.

(* the bindings of a view *)
Lemma view_defs_tidy h (self : nat) cls x d (args : list handle) c :
  heap_inv h → objects h !! self = Some (Instance_View cls x) →
  d ∈ class_defs (Instance_View cls x) → def_impl d self args = Some c →
  tidy self None h (c h).
Proof.
  intros Hinv Hv Hd Hc.
  destruct (inv_view _ Hinv _ _ _ Hv) as [[m Hm] _].
  assert (∀ A (wrap : A → retval Key Value) (c0 : prog (heap Key Map) A),
    (∀ a l', wrap a ≠ ret_object l') → (c0 h).1 = h →
    tidy self None h (returning wrap c0 h)) as Hread.
  { intros A wrap c0 Hw Hc0. apply tidy_returning; [done|].
    rewrite Hc0. apply extends_refl. }
  destruct cls; simpl in Hd;
    repeat (apply elem_of_cons in Hd as [->|Hd]);
    try (by apply elem_of_nil in Hd); simpl in Hc.
  - apply key_arg_Some in Hc as [k ->]. apply Hread; [done|].
    by erewrite run_KeyView_contains.
  - apply handle_arg_Some in Hc as [a ->]. by apply Hread.
  - apply no_args_Some in Hc as ->. apply Hread; [done|].
    unfold KeyView__len__.
    erewrite bind_Ok by (by apply view_map_Ok). by erewrite on_map_read.
  - apply no_args_Some in Hc as ->. unfold KeyView__iter__.
    erewrite bind_Ok by (by apply view_map_Ok).
    erewrite begin_end_on_map by done. apply tidy_alloc.
  - apply no_args_Some in Hc as ->. apply Hread; [done|].
    unfold ValueView__len__.
    erewrite bind_Ok by (by apply view_map_Ok). by erewrite on_map_read.
  - apply no_args_Some in Hc as ->. unfold ValueView__iter__.
    erewrite bind_Ok by (by apply view_map_Ok).
    erewrite begin_end_on_map by done. apply tidy_alloc.
  - apply no_args_Some in Hc as ->. apply Hread; [done|].
    unfold ItemView__len__.
    erewrite bind_Ok by (by apply view_map_Ok). by erewrite on_map_read.
  - apply no_args_Some in Hc as ->. unfold ItemView__iter__.
    erewrite bind_Ok by (by apply view_map_Ok).
    erewrite begin_end_on_map by done. apply tidy_alloc.
Qed.

(* the bindings of a Map *)
Lemma Map_defs_tidy h (self : nat) m d (args : list handle) c :
  map_at h self = Some m →
  d ∈ Map_defs → def_impl d self args = Some c →
  tidy self (Some self) h (c h).
Proof.
  intros Hm Hd Hc. unfold Map_defs in Hd.
  assert (∀ A (wrap : A → retval Key Value) (c0 : cmd Key Value Map A),
    (∀ a l', wrap a ≠ ret_object l') →
    tidy self (Some self) h (returning wrap (on_map self c0) h)) as Hcmd.
  { intros A wrap c0 Hw. apply tidy_returning; [done|]. apply extends_on_map. }
  repeat (apply elem_of_app in Hd as [Hd|Hd]);
    [| destruct has_setitem; [|by apply elem_of_nil in Hd] |];
    repeat (apply elem_of_cons in Hd as [->|Hd]);
    try (by apply elem_of_nil in Hd); simpl in Hc.
  - apply no_args_Some in Hc as ->. by apply Hcmd.
  - apply no_args_Some in Hc as ->. by apply Hcmd.
  - apply key_arg_Some in Hc as [k ->]. by apply Hcmd.
  - apply handle_arg_Some in Hc as [a ->]. by apply Hcmd.
  - apply no_args_Some in Hc as ->. unfold Map__iter__.
    erewrite begin_end_on_map by done. apply tidy_weaken, tidy_alloc.
  - apply key_arg_Some in Hc as [k ->]. by apply Hcmd.
  - apply key_arg_Some in Hc as [k ->]. by apply Hcmd.
  - apply key_value_args_Some in Hc as (k & v & ->). by apply Hcmd.
  - apply no_args_Some in Hc as ->. apply tidy_weaken, tidy_alloc.
  - apply no_args_Some in Hc as ->. apply tidy_weaken, tidy_alloc.
  - apply no_args_Some in Hc as ->. apply tidy_weaken, tidy_alloc.
Qed.

(* a step of a lazy sequence changes the sequence only *)
Lemma Iterator_next_tidy h (self : nat) :
  tidy self (Some self) h (Iterator__next__ (Value:=Value) self h).
Proof.
  assert (∀ r : outcome (retval Key Value),
            (∀ l', r ≠ Ok (ret_object l')) → tidy self (Some self) h (h, r))
    as Hh.
  { intros r Hr. split; [apply extends_refl|]. simpl. intros l' Heq.
    by apply Hr in Heq. }
  unfold Iterator__next__.
  destruct (objects h !! self) as [[| |a [x c] stop]|] eqn:Hi;
    try (by apply Hh).
  destruct (decide _); [by apply Hh|]. cbn [fst snd].
  unfold bind at 1.
  destruct (on_map x (deref_ c) h) as [h1 r1] eqn:Hd1.
  pose proof (on_map_query_state (Value:=Value) (call_deref c)
                (λ m, map_deref m c) h x) as Hs1.
  unfold deref_ in Hd1. rewrite Hd1 in Hs1. simpl in Hs1. subst h1.
  destruct r1 as [e| |]; try (by apply Hh).
  unfold bind at 1.
  destruct (on_map x (next_ c) h) as [h2 r2] eqn:Hd2.
  pose proof (on_map_query_state (Value:=Value) (call_next c)
                (λ m, map_next m c) h x) as Hs2.
  unfold next_ in Hd2. rewrite Hd2 in Hs2. simpl in Hs2. subst h2.
  destruct r2 as [n'| |]; try (by apply Hh).
  unfold bind, put_object, ret. split; simpl.
  - split; [done|]. intros l Hne _. simpl. rewrite lookup_insert_ne; [done|].
    congruence.
  - intros l' [= Hy]. by destruct a.
Qed.

(** A call, on whatever it is made. *)
Lemma py_call_tidy h self name (args : list handle) :
  heap_inv h →
  tidy self (match objects h !! self with
             | Some (Instance_View _ _) => None
             | _ => Some self
             end) h (py_call self name args h).
Proof.
  intros Hinv.
  assert (∀ except (r : outcome (retval Key Value)),
            (∀ l', r ≠ Ok (ret_object l')) → tidy self except h (h, r)) as Hh.
  { intros except r Hr. split; [apply extends_refl|]. simpl. intros l' Heq.
    by apply Hr in Heq. }
  unfold py_call. destruct (objects h !! self) as [o|] eqn:Ho; [|by apply Hh].
  destruct (bool_decide _); [|destruct o; by apply Hh].
  destruct (resolve _ _ _ _) as [[d c]|] eqn:Hr; [|destruct o; by apply Hh].
  apply resolve_elem in Hr as [Hd Hc].
  assert (∀ except, tidy self except h (c h) →
    tidy self except h
      match c h with
      | (h', Ok r) => (foldl (apply_policy self r) h' (def_policies d), Ok r)
      | other => other
      end) as Hpol.
  { intros except [Hext Hret]. destruct (c h) as [h1 [r1| |]]; try done.
    destruct (objects_call_heap self d h1 (Ok r1)) as [Hobj Hnext].
    unfold call_heap in Hobj, Hnext. destruct Hext as [Hn Hl].
    split; simpl in *.
    - split; [by rewrite Hnext|]. intros l ? ?. rewrite Hobj. by apply Hl.
    - intros l' Heq. rewrite Hobj. by apply Hret. }
  destruct o as [m|cls x|a cur stop]; apply Hpol.
  - eapply Map_defs_tidy; [|done..]. by apply map_at_Some.
  - by eapply view_defs_tidy.
  - unfold class_defs, Iterator_defs in Hd.
    repeat (apply elem_of_cons in Hd as [->|Hd]);
      try (by apply elem_of_nil in Hd); simpl in Hc.
    + apply no_args_Some in Hc as ->. split; [apply extends_refl|].
      simpl. intros l' [= <-]. by left.
    + apply no_args_Some in Hc as ->. apply Iterator_next_tidy.
Qed.

(** X13: a call changes no existing object other than the one it is made
    on: not another Map, not a view, not a lazy sequence.  An object it
    returns is the one it was made on (the [__iter__] of a lazy sequence)
    or did not exist before the call. *)
Theorem call_changes_only_self h self name (args : list handle) :
  reachable (handle:=handle) h →
  (∀ l o, l ≠ self → objects h !! l = Some o →
          objects (py_call self name args h).1 !! l = Some o) ∧
  (∀ l', (py_call self name args h).2 = Ok (ret_object l') →
         l' = self ∨
         (objects h !! l' = None ∧
          is_Some (objects (py_call self name args h).1 !! l'))).
Proof.
  intros Hinv%reachable_inv.
  destruct (py_call_tidy h self name args Hinv) as [[_ Hold] Hret]. split.
  - intros l o Hne Hl. rewrite Hold; [done| |by eapply inv_fresh].
    destruct (objects h !! self) as [[]|]; congruence.
  - intros l' Hl'. destruct (Hret l' Hl') as [->|[-> ?]]; [by left|].
    right. split; [by apply unallocated_next_loc | done].
Qed.

(** X14: a view is read-only: no call on a view changes any object there
    is, the Map it shows included. *)
Theorem view_calls_change_nothing h (vw : nat) cls x name (args : list handle)
    l o :
  reachable (handle:=handle) h →
  objects h !! vw = Some (Instance_View cls x) →
  objects h !! l = Some o →
  objects (py_call vw name args h).1 !! l = Some o.
Proof.
  intros Hinv%reachable_inv Hv Hl.
  destruct (py_call_tidy h vw name args Hinv) as [[_ Hold] _].
  rewrite Hv in Hold. rewrite Hold; [done..|]. by eapply inv_fresh.
Qed.
End frame.

(** ** Views over time *)
Section liveness.
Context {Key Value Map handle : Type} `{EqDecision Key}.
Context `{NativeMap Key Value Map} `{!NativeMapLaws Key Value Map}.
Context `{ValueTraits Value}.
Context `{TypeCaster handle Key} `{TypeCaster handle Value}.
Implicit Types (m : Map) (k : Key) (v : Value) (h : heap Key Map) (l : nat).
Implicit Types (o : object Key Map).

Lemma run_events_reachable es h h' :
  reachable (handle:=handle) h → run_events es h = Some h' →
  reachable (handle:=handle) h'.
Proof.
  induction es as [|e es IH] in h |- *; simpl.
  - by intros ? [= <-].
  - intros Hr. destruct (step e h) as [h1|] eqn:Hstep; [|done].
    apply IH. by eapply reachable_step.
Qed.

(** A view is the same object until it is destroyed, and an address is not
    used a second time. *)
Lemma step_view_stays e h h' (vw : nat) cls x :
  heap_inv h → step (handle:=handle) e h = Some h' →
  vw < next_loc h →
  objects h !! vw = Some (Instance_View cls x) ∨ objects h !! vw = None →
  vw < next_loc h' ∧
  (objects h' !! vw = Some (Instance_View cls x) ∨ objects h' !! vw = None).
Proof.
  intros Hinv Hstep Hlt Hvw. destruct e as [|self name args|l]; simpl in Hstep.
  - injection Hstep as <-. simpl. split; [lia|].
    rewrite lookup_insert_ne by lia. done.
  - pose proof (py_call_tidy h self name args Hinv) as [[Hn Hold] _].
    destruct (decide (self = vw)) as [->|Hne].
    + destruct Hvw as [Hv|Hv].
      * rewrite Hv in Hold.
        destruct (py_call vw name args h) as [h1 r]. simpl in *.
        assert (h' = h1) as -> by (destruct r; congruence).
        split; [lia|]. rewrite Hold by done. by left.
      * unfold py_call in Hstep. by rewrite Hv in Hstep.
    + destruct (py_call self name args h) as [h1 r]. simpl in *.
      assert (h' = h1) as -> by (destruct r; congruence).
      split; [lia|]. rewrite Hold; [done| |done].
      destruct (objects h !! self) as [[]|]; congruence.
  - unfold destroy in Hstep. destruct (destroyable h l); [|done].
    injection Hstep as <-. simpl. split; [done|].
    destruct (decide (l = vw)) as [->|Hne].
    + right. apply lookup_delete_eq.
    + by rewrite lookup_delete_ne.
Qed.

Lemma run_events_view_stays es h h' (vw : nat) cls x :
  heap_inv h → run_events (handle:=handle) es h = Some h' →
  vw < next_loc h →
  objects h !! vw = Some (Instance_View cls x) ∨ objects h !! vw = None →
  objects h' !! vw = Some (Instance_View cls x) ∨ objects h' !! vw = None.
Proof.
  induction es as [|e es IH] in h |- *; simpl; intros Hinv Hrun Hlt Hvw.
  - by injection Hrun as <-.
  - destruct (step e h) as [h1|] eqn:Hstep; [|done].
    destruct (step_view_stays e h h1 vw cls x Hinv Hstep Hlt Hvw) as [? ?].
    eapply IH; [|done..]. by eapply step_inv.
Qed.

(** C8: views are live, not snapshots.  A view [keys()], [values()] or
    [items()] returns for the Map at [x] shows, when it is created, the
    container [m] the Map holds.  After a [__setitem__] on the Map the
    same view shows the container the Map holds then, which has the new
    entry and one more entry than [m] if the key was new; after a
    [__delitem__] of a key that was there it shows a container without the
    key and with one entry less.  And whatever happens to the heap after
    the creation, for as long as the view exists, its [__len__] and its
    iteration are those of the container the Map holds at the time of the
    call, the one the [__len__] of the Map itself reports. *)
Theorem views_are_live h x m cls (ka va : handle) k v :
  reachable (handle:=handle) h → map_at h x = Some m →
  from_python ka = Some k → from_python va = Some v →
  ∃ h1 vw,
    py_call (handle:=handle) x (accessor cls) [] h = (h1, Ok (ret_object vw)) ∧
    reflects (handle:=handle) h1 vw cls m ∧
    (has_setitem = true →
     ∃ h2 m2,
       py_call x "__setitem__" [ka; va] h1 = (h2, Ok ret_none) ∧
       map_at h2 x = Some m2 ∧
       lookup_entry m2 k = Some (k, v) ∧
       map_size m2 =
         (if decide (k ∈ map_keys m) then map_size m else S (map_size m)) ∧
       reflects (handle:=handle) h2 vw cls m2) ∧
    (k ∈ map_keys m →
     ∃ h2 m2,
       py_call x "__delitem__" [ka] h1 = (h2, Ok ret_none) ∧
       map_at h2 x = Some m2 ∧
       lookup_entry m2 k = None ∧
       S (map_size m2) = map_size m ∧
       reflects (handle:=handle) h2 vw cls m2) ∧
    (∀ es h2,
       run_events (handle:=handle) es h1 = Some h2 →
       is_Some (objects h2 !! vw) →
       ∃ m2,
         map_at h2 x = Some m2 ∧
         py_call (handle:=handle) x "__len__" [] h2 =
           (h2, Ok (ret_size (map_size m2))) ∧
         reflects (handle:=handle) h2 vw cls m2).
Proof.
  intros Hreach Hm Hk Hv. pose proof (reachable_inv _ Hreach) as Hinv.
  pose proof (py_call_accessor (handle:=handle) h x m cls Hm) as Hcall.
  set (h1 := after_alloc h (Instance_View cls x) x) in *.
  set (vw := next_loc h) in *.
  pose proof (py_call_inv _ _ _ _ _ _ Hinv Hcall) as Hinv1.
  assert (objects h1 !! vw = Some (Instance_View cls x)) as Hvw
    by (by unfold h1; rewrite lookup_after_alloc, decide_True).
  assert (map_at h1 x = Some m) as Hm1 by (by apply map_at_after_alloc).
  assert (vw ≠ x) as Hne.
  { intros Heq. rewrite Heq in Hvw. apply map_at_Some in Hm1. congruence. }
  assert (unique_keys m) as Hnd by (by eapply inv_unique).
  assert (∀ name (args : list handle) m' r,
    py_call x name args h1 = (set_object x (Instance_Map m') h1, r) →
    map_at (set_object x (Instance_Map m') h1) x = Some m' ∧
    reflects (handle:=handle) (set_object x (Instance_Map m') h1) vw cls m')
    as Hafter.
  { intros name args m' r Hc.
    pose proof (py_call_inv _ _ _ _ _ _ Hinv1 Hc) as Hinv2.
    assert (map_at (set_object x (Instance_Map m') h1) x = Some m') as Hm2
      by (by rewrite map_at_set_object, decide_True).
    split; [done|]. apply (view_reflects _ _ _ x); [done| |done].
    by rewrite lookup_set_object, decide_False. }
  exists h1, vw. split; [done|]. split; [by eapply view_reflects|].
  split_and!.
  - intros Hs.
    pose proof (py_call_setitem h1 x m ka va k v Hs Hm1 Hk Hv) as Hc.
    destruct (run_setitem m k v Hnd) as (m2 & t & Hrun & _ & Hl & _ & Hsz).
    rewrite Hrun in Hc. unfold state_of, result_of in Hc. simpl in Hc.
    destruct (Hafter _ _ _ _ Hc) as [Hm2 Hrefl].
    by eexists _, m2.
  - intros Hin.
    pose proof (py_call_delitem h1 x m ka k Hm1 Hk) as Hc.
    rewrite run_delitem_present in Hc by done.
    unfold state_of, result_of in Hc. simpl in Hc.
    destruct (Hafter _ _ _ _ Hc) as [Hm2 Hrefl].
    eexists _, _. split_and!; [done..| | |done].
    + by apply erase_lookup_eq.
    + by apply erase_size.
  - intros es h2 Hrun [o Ho].
    pose proof (run_events_reachable es h1 h2
                  (reachable_step _ (ev_call x (accessor cls) []) _ Hreach
                     ltac:(simpl; by rewrite Hcall)) Hrun) as Hreach2.
    pose proof (reachable_inv _ Hreach2) as Hinv2.
    destruct (run_events_view_stays es h1 h2 vw cls x Hinv1 Hrun) as [Hv2|Hv2];
      [by eapply inv_fresh | by left | | congruence].
    destruct (inv_view _ Hinv2 _ _ _ Hv2) as [[m2 Hm2] _].
    exists m2. split; [done|]. split; [by apply py_call_Map_len|].
    by eapply view_reflects.
Qed.
End liveness.

(** ** The surface of the bindings *)
Section surface.
Context {Key Value Map handle : Type} `{EqDecision Key}.
Context `{NativeMap Key Value Map} `{!NativeMapLaws Key Value Map}.
Context `{ValueTraits Value}.
Context `{TypeCaster handle Key} `{TypeCaster handle Value}.
Implicit Types (m : Map) (k : Key) (v : Value) (h : heap Key Map) (l : nat).
Implicit Types (o : object Key Map).

Lemma py_call_unresolved h self o name (args : list handle) :
  objects h !! self = Some o →
  name ∈ def_name <$> class_defs o →
  resolve (class_defs o) name self args = None →
  py_call self name args h = (h, Throw type_error).
Proof.
  intros Ho Hn Hr. unfold py_call. rewrite Ho, Hr.
  by rewrite bool_decide_true.
Qed.

Lemma py_call_unbound h self o name (args : list handle) :
  objects h !! self = Some o →
  name ∉ def_name <$> class_defs o →
  py_call self name args h = (h, Throw attribute_error).
Proof.
  intros Ho Hn. unfold py_call. rewrite Ho. by rewrite bool_decide_false.
Qed.

Lemma zip_keys_values (l : list (Key * Value)) :
  zip_with (ret_item (Key:=Key) (Value:=Value)) l.*1 l.*2 =
    yield whole_entries <$> l.
Proof.
  induction l as [|e l IH]; [done|].
  rewrite !fmap_cons. cbn [zip_with]. by rewrite IH.
Qed.

(** X15: [keys()], [values()] and [items()] walk the container in step.
    The views they return have the length of the Map; iterating them gives
    the keys, the values and the pairs of one and the same traversal, so the
    i-th value is the one stored under the i-th key, and the i-th item is
    that pair. *)
Theorem views_walk_in_step h x m fuel :
  reachable (handle:=handle) h → map_at h x = Some m → map_size m < fuel →
  ∃ ks vs,
    length ks = map_size m ∧ length vs = map_size m ∧
    (∀ i k v, ks !! i = Some k → vs !! i = Some v →
       result_of (run (Map__getitem__ k) m) = Ok v) ∧
    ∀ cls, ∃ h1 vw h',
      py_call (handle:=handle) x (accessor cls) [] h = (h1, Ok (ret_object vw)) ∧
      py_call (handle:=handle) vw "__len__" [] h1 =
        (h1, Ok (ret_size (map_size m))) ∧
      iterate (handle:=handle) fuel vw h1 =
        Some (h', Ok match cls with
                     | KeyView => ret_key <$> ks
                     | ValueView => ret_value <$> vs
                     | ItemView => zip_with ret_item ks vs
                     end).
Proof.
  intros Hinv%reachable_inv Hm Hfuel.
  exists (entries m).*1, (entries m).*2. unfold map_size in *.
  rewrite !length_fmap. split_and!; [done..| |].
  - intros i k v Hk Hv. rewrite list_lookup_fmap in Hk.
    rewrite list_lookup_fmap in Hv.
    destruct (entries m !! i) as [[k0 v0]|] eqn:He; [|done].
    simpl in Hk, Hv. injection Hk as ->. injection Hv as ->.
    assert (lookup_entry m k = Some (k, v)) as Hl.
    { apply find_entry_unique; [by eapply (inv_unique h) |].
      by eapply list_elem_of_lookup_2. }
    by rewrite getitem_result, Hl.
  - intros cls.
    pose proof (py_call_accessor (handle:=handle) h x m cls Hm) as Hcall.
    pose proof (py_call_inv _ _ _ _ _ _ Hinv Hcall) as Hinv1.
    assert (objects (after_alloc h (Instance_View cls x) x) !! next_loc h =
              Some (Instance_View cls x)) as Hv
      by (by rewrite lookup_after_alloc, decide_True).
    assert (map_at (after_alloc h (Instance_View cls x) x) x = Some m) as Hm1
      by (by apply map_at_after_alloc).
    destruct (iterate_view (handle:=handle) _ (next_loc h) cls x m fuel
                Hinv1 Hv Hm1 Hfuel) as [h' Hit].
    eexists _, _, h'. split; [done|].
    split; [by eapply py_call_view_len|]. rewrite Hit. do 3 f_equal.
    destruct cls; simpl.
    + by rewrite <- list_fmap_compose.
    + by rewrite <- list_fmap_compose.
    + by rewrite zip_keys_values.
Qed.

(** X16: an argument that is not of the key type is a [type_error] for
    [__getitem__] and [__delitem__], which have no fallback binding, while
    [__contains__] answers false; nothing is changed. *)
Theorem foreign_key_is_type_error h x m (a : handle) :
  map_at h x = Some m → from_python (T:=Key) a = None →
  py_call x "__getitem__" [a] h = (h, Throw type_error) ∧
  py_call x "__delitem__" [a] h = (h, Throw type_error) ∧
  py_call x "__contains__" [a] h = (h, Ok (ret_bool false)).
Proof.
  intros Hm Ha. pose proof (proj1 (map_at_Some _ _ _) Hm) as Ho.
  split_and!.
  - eapply py_call_unresolved; [done| |].
    + simpl. unfold Map_defs. destruct has_setitem; apply (bool_decide_unpack _); vm_compute; exact I.
    + simpl. unfold Map_defs. destruct has_setitem; simpl; by rewrite Ha.
  - eapply py_call_unresolved; [done| |].
    + simpl. unfold Map_defs. destruct has_setitem; apply (bool_decide_unpack _); vm_compute; exact I.
    + simpl. unfold Map_defs. destruct has_setitem; simpl; by rewrite Ha.
  - rewrite (py_call_Map_contains h x m a) by done. by rewrite Ha.
Qed.

(** X17: [__setitem__] is bound exactly when the Value type is
    copy-assignable or copy-constructible.  When it is neither, the call
    raises [attribute_error] whatever the arguments.  When it is one of
    them, arguments of the key and value types run the lambda on the Map
    and the call returns None, and arguments that do not convert are a
    [type_error].  A call the dispatch rejects leaves the heap as it
    was. *)
Theorem setitem_bound_iff_copyable h x m (ka va : handle) :
  reachable (handle:=handle) h → map_at h x = Some m →
  py_call x "__setitem__" [ka; va] h =
    if is_copy_assignable_v || is_copy_constructible_v then
      match from_python ka, from_python va with
      | Some k, Some v =>
          (set_object x
             (Instance_Map (state_of (run (Map__setitem__ k v) m))) h,
           Ok ret_none)
      | _, _ => (h, Throw type_error)
      end
    else (h, Throw attribute_error).
Proof.
  intros Hinv%reachable_inv Hm.
  pose proof (proj1 (map_at_Some _ _ _) Hm) as Ho.
  change (is_copy_assignable_v || is_copy_constructible_v) with has_setitem.
  destruct has_setitem eqn:Hs.
  - destruct (from_python ka) as [k|] eqn:Hk;
      [destruct (from_python va) as [v|] eqn:Hv|].
    + rewrite (py_call_setitem h x m ka va k v) by done.
      destruct (run_setitem m k v (inv_unique _ Hinv _ _ Hm))
        as (m' & t & -> & _). done.
    + eapply py_call_unresolved; [done| |].
      * simpl. unfold Map_defs. rewrite Hs.
        apply (bool_decide_unpack _). vm_compute. exact I.
      * simpl. unfold Map_defs. rewrite Hs. simpl. by rewrite Hk, Hv.
    + eapply py_call_unresolved; [done| |].
      * simpl. unfold Map_defs. rewrite Hs.
        apply (bool_decide_unpack _). vm_compute. exact I.
      * simpl. unfold Map_defs. rewrite Hs. simpl. by rewrite Hk.
  - eapply py_call_unbound; [done|].
    simpl. unfold Map_defs. rewrite Hs.
    apply (bool_decide_unpack _). vm_compute. exact I.
Qed.
End surface.

(** ** Where undefined behaviour can come from *)
Section defined.
Context {Key Value Map handle : Type} `{EqDecision Key}.
Context `{NativeMap Key Value Map} `{!NativeMapLaws Key Value Map}.
Context `{ValueTraits Value}.
Context `{TypeCaster handle Key} `{TypeCaster handle Value}.
Implicit Types (m : Map) (k : Key) (v : Value) (h : heap Key Map) (l : nat).
Implicit Types (o : object Key Map).






End defined.

(** ** The further properties at [bind_map<std::map<std::string, int>>] *)
Section more_instances.
Import demo.
Local Open Scope Z_scope.

Lemma reachable_map_ab :
  Map_reachable (H0:=int_traits) (Map:=string_map) map_ab.
Proof.
  exact (reachable_serve (H0:=int_traits) (Map:=string_map) [("a", 1)]
           (req_setitem "b" 2)
           (reachable_serve (H0:=int_traits) (Map:=string_map) []
              (req_setitem "a" 1) reachable_ctor)).
Defined.

Lemma constructed_map_is_empty_witness :
  result_of (run Map__len__ (map_ctor (Map:=string_map))) = Ok 0%nat ∧
  result_of (run Map__bool__ (map_ctor (Map:=string_map))) = Ok false ∧
  result_of (run (Map__contains__ "a") (map_ctor (Map:=string_map))) =
    Ok false ∧
  result_of (run (Map__getitem__ "a") (map_ctor (Map:=string_map))) =
    Throw key_error ∧
  result_of (run (Map__delitem__ "a") (map_ctor (Map:=string_map))) =
    Throw key_error.
Proof. exact (constructed_map_is_empty (Map:=string_map) "a"). Defined.

Lemma entries_read_back_witness :
  unique_keys map_ab ∧ ("b", 2) ∈ entries map_ab ∧
  result_of (run (Map__contains__ "b") map_ab) = Ok true ∧
  result_of (run (Map__getitem__ "b") map_ab) = Ok 2.
Proof.
  assert (("b", 2) ∈ entries map_ab) as Hb.
  { apply (bool_decide_unpack (_ ∈ _)). exact I. }
  split; [exact unique_keys_ab|]. split; [exact Hb|].
  exact (entries_read_back map_ab "b" 2 unique_keys_ab Hb).
Defined.

Lemma set_then_delete_restores_witness :
  unique_keys map_ab ∧ ("c" ∉ map_keys map_ab) ∧
  ∃ m1 t1 m2 t2,
    run (Map__setitem__ (H0:=const_int_traits) "c" 3) map_ab =
      ((m1, t1), Ok ()) ∧
    run (Map__delitem__ "c") m1 = ((m2, t2), Ok ()) ∧
    entries m2 ≡ₚ entries map_ab.
Proof.
  assert ("c" ∉ map_keys map_ab) as Hc.
  { apply (bool_decide_unpack (_ ∉ _)). exact I. }
  split; [exact unique_keys_ab|]. split; [exact Hc|].
  exact (set_then_delete_restores (H0:=const_int_traits) map_ab "c" 3
           unique_keys_ab Hc).
Defined.

Lemma delete_is_final_witness :
  unique_keys map_ab ∧ "a" ∈ map_keys map_ab ∧
  ∃ m' t,
    run (Map__delitem__ "a") map_ab = ((m', t), Ok ()) ∧
    run (Map__delitem__ "a") m' =
      ((m', [call_find "a"; call_end]), Throw key_error) ∧
    run (Map__getitem__ "a") m' =
      ((m', [call_find "a"; call_end]), Throw key_error).
Proof.
  assert ("a" ∈ map_keys map_ab) as Ha.
  { apply (bool_decide_unpack (_ ∈ _)). exact I. }
  split; [exact unique_keys_ab|]. split; [exact Ha|].
  exact (delete_is_final map_ab "a" unique_keys_ab Ha).
Defined.


Lemma setitem_native_calls_witness :
  unique_keys map_ab ∧
  (run (Map__setitem__ (H0:=const_int_traits) "c" 3) map_ab).1.2 =
    if is_copy_assignable_v (ValueTraits:=const_int_traits)
    then [call_subscript "c"; call_assign "c" 3]
    else if decide ("c" ∈ map_keys map_ab)
         then [call_emplace "c" 3 false; call_erase (It "c");
               call_emplace "c" 3 true]
         else [call_emplace "c" 3 true].
Proof.
  split; [exact unique_keys_ab|].
  exact (setitem_native_calls (H0:=const_int_traits) map_ab "c" 3
           unique_keys_ab).
Defined.


Lemma writes_commute_witness :
  unique_keys map_ab ∧ "a" ≠ "c" ∧
  entries (state_of (run (Map__setitem__ (H0:=int_traits) "c" 3)
             (state_of (run (Map__setitem__ (H0:=int_traits) "a" 5) map_ab))))
  ≡ₚ
  entries (state_of (run (Map__setitem__ (H0:=int_traits) "a" 5)
             (state_of (run (Map__setitem__ (H0:=int_traits) "c" 3) map_ab)))).
Proof.
  assert ("a" ≠ "c") as Hne by discriminate.
  split; [exact unique_keys_ab|]. split; [exact Hne|].
  exact (writes_commute (H0:=int_traits) map_ab "a" 5 "c" 3
           unique_keys_ab Hne).
Defined.

Lemma keys_stay_unique_witness :
  Map_reachable (H0:=int_traits) map_ab ∧
  NoDup (map_keys map_ab) ∧
  result_of (run Map__len__ map_ab) = Ok (length (map_keys map_ab)).
Proof.
  split; [exact reachable_map_ab|].
  exact (keys_stay_unique (H0:=int_traits) map_ab reachable_map_ab).
Defined.

Lemma call_changes_only_self_witness :
  reachable (handle:=py_object) (H0:=int_traits) heap_ab ∧
  (∀ l o, l ≠ 0%nat → objects heap_ab !! l = Some o →
          objects (py_call (H0:=int_traits) (handle:=py_object) 0 "values" []
                     heap_ab).1 !! l = Some o) ∧
  (∀ l', (py_call (H0:=int_traits) (handle:=py_object) 0 "values" []
            heap_ab).2 = Ok (ret_object l') →
         l' = 0%nat ∨
         (objects heap_ab !! l' = None ∧
          is_Some (objects (py_call (H0:=int_traits) (handle:=py_object) 0
                              "values" [] heap_ab).1 !! l'))).
Proof.
  split; [exact reachable_heap_ab|].
  exact (call_changes_only_self (H0:=int_traits) (handle:=py_object) heap_ab
           0%nat "values" [] reachable_heap_ab).
Defined.

Lemma view_calls_change_nothing_witness :
  reachable (handle:=py_object) (H0:=int_traits) heap_ab ∧
  objects heap_ab !! 1%nat = Some (Instance_View KeyView 0) ∧
  objects heap_ab !! 0%nat = Some (Instance_Map map_ab) ∧
  objects (py_call (H0:=int_traits) (handle:=py_object) 1 "__iter__" []
             heap_ab).1 !! 0%nat = Some (Instance_Map map_ab).
Proof.
  split; [exact reachable_heap_ab|]. split; [reflexivity|]. split; [reflexivity|].
  exact (view_calls_change_nothing (H0:=int_traits) (handle:=py_object)
           heap_ab 1%nat KeyView 0%nat "__iter__" [] 0%nat _
           reachable_heap_ab eq_refl eq_refl).
Defined.

Lemma views_walk_in_step_witness :
  reachable (handle:=py_object) (H0:=int_traits) heap_ab ∧
  map_at heap_ab 0 = Some map_ab ∧ (map_size map_ab < 3)%nat ∧
  ∃ ks vs,
    length ks = map_size map_ab ∧ length vs = map_size map_ab ∧
    (∀ i k v, ks !! i = Some k → vs !! i = Some v →
       result_of (run (Map__getitem__ k) map_ab) = Ok v) ∧
    ∀ cls, ∃ h1 vw h',
      py_call (H0:=int_traits) (handle:=py_object) 0 (accessor cls) [] heap_ab =
        (h1, Ok (ret_object vw)) ∧
      py_call (H0:=int_traits) (handle:=py_object) vw "__len__" [] h1 =
        (h1, Ok (ret_size (map_size map_ab))) ∧
      iterate (H0:=int_traits) (handle:=py_object) 3 vw h1 =
        Some (h', Ok match cls with
                     | KeyView => ret_key <$> ks
                     | ValueView => ret_value <$> vs
                     | ItemView => zip_with ret_item ks vs
                     end).
Proof.
  split; [exact reachable_heap_ab|]. split; [reflexivity|]. split; [exact (le_n 3)|].
  exact (views_walk_in_step (H0:=int_traits) (handle:=py_object) heap_ab 0%nat
           map_ab 3%nat reachable_heap_ab eq_refl (le_n 3)).
Defined.

Lemma foreign_key_is_type_error_witness :
  map_at heap_ab 0 = Some map_ab ∧
  from_python (T:=string) (py_int 7) = None ∧
  py_call (H0:=int_traits) 0 "__getitem__" [py_int 7] heap_ab =
    (heap_ab, Throw type_error) ∧
  py_call (H0:=int_traits) 0 "__delitem__" [py_int 7] heap_ab =
    (heap_ab, Throw type_error) ∧
  py_call (H0:=int_traits) 0 "__contains__" [py_int 7] heap_ab =
    (heap_ab, Ok (ret_bool false)).
Proof.
  split; [reflexivity|]. split; [reflexivity|].
  exact (foreign_key_is_type_error (H0:=int_traits) heap_ab 0%nat map_ab
           (py_int 7) eq_refl eq_refl).
Defined.

Lemma reachable_heap_ab_reconstruct :
  reachable (handle:=py_object) (H0:=const_int_traits) heap_ab.
Proof.
  apply (reachable_step heap_a_keys
           (ev_call 0 "__setitem__" [py_str "b"; py_int 2])); [|reflexivity].
  apply (reachable_step heap_a (ev_call 0 "keys" [])); [|reflexivity].
  apply (reachable_step (Map__init__ empty_heap).1
           (ev_call 0 "__setitem__" [py_str "a"; py_int 1])); [|reflexivity].
  apply (reachable_step empty_heap ev_construct); [|reflexivity].
  apply reachable_empty.
Defined.

Lemma setitem_bound_iff_copyable_witness :
  reachable (handle:=py_object) (H0:=const_int_traits) heap_ab ∧
  map_at heap_ab 0 = Some map_ab ∧
  is_copy_assignable_v (ValueTraits:=const_int_traits) = false ∧
  is_copy_constructible_v (ValueTraits:=const_int_traits) = true ∧
  py_call (H0:=const_int_traits) 0 "__setitem__" [py_str "c"; py_int 3]
    heap_ab =
    (set_object 0
       (Instance_Map
          (state_of (run (Map__setitem__ (H0:=const_int_traits) "c" 3)
                       map_ab)))
       heap_ab,
     Ok ret_none).
Proof.
  split; [exact reachable_heap_ab_reconstruct|]. split; [reflexivity|].
  split; [reflexivity|]. split; [reflexivity|].
  exact (setitem_bound_iff_copyable (H0:=const_int_traits) heap_ab 0%nat
           map_ab (py_str "c") (py_int 3) reachable_heap_ab_reconstruct
           eq_refl).
Defined.

Lemma views_are_live_witness :
  reachable (handle:=py_object) (H0:=int_traits) heap_ab ∧
  map_at heap_ab 0 = Some map_ab ∧
  from_python (py_str "a") = Some "a" ∧
  from_python (py_int 5) = Some 5 ∧
  ∃ h1 vw,
    py_call (H0:=int_traits) (handle:=py_object) 0 (accessor ValueView) []
      heap_ab = (h1, Ok (ret_object vw)) ∧
    reflects (H0:=int_traits) (handle:=py_object) h1 vw ValueView map_ab ∧
    (has_setitem (H0:=int_traits) = true →
     ∃ h2 m2,
       py_call (H0:=int_traits) 0 "__setitem__" [py_str "a"; py_int 5] h1 =
         (h2, Ok ret_none) ∧
       map_at h2 0 = Some m2 ∧
       lookup_entry m2 "a" = Some ("a", 5) ∧
       map_size m2 =
         (if decide ("a" ∈ map_keys map_ab) then map_size map_ab
          else S (map_size map_ab)) ∧
       reflects (H0:=int_traits) (handle:=py_object) h2 vw ValueView m2) ∧
    ("a" ∈ map_keys map_ab →
     ∃ h2 m2,
       py_call (H0:=int_traits) 0 "__delitem__" [py_str "a"] h1 =
         (h2, Ok ret_none) ∧
       map_at h2 0 = Some m2 ∧
       lookup_entry m2 "a" = None ∧
       S (map_size m2) = map_size map_ab ∧
       reflects (H0:=int_traits) (handle:=py_object) h2 vw ValueView m2) ∧
    (∀ es h2,
       run_events (H0:=int_traits) (handle:=py_object) es h1 = Some h2 →
       is_Some (objects h2 !! vw) →
       ∃ m2,
         map_at h2 0 = Some m2 ∧
         py_call (H0:=int_traits) (handle:=py_object) 0 "__len__" [] h2 =
           (h2, Ok (ret_size (map_size m2))) ∧
         reflects (H0:=int_traits) (handle:=py_object) h2 vw ValueView m2).
Proof.
  split; [exact reachable_heap_ab|]. split; [reflexivity|].
  split; [reflexivity|]. split; [reflexivity|].
  exact (views_are_live (H0:=int_traits) (handle:=py_object) heap_ab 0%nat
           map_ab ValueView (py_str "a") (py_int 5) "a" 5
           reachable_heap_ab eq_refl eq_refl eq_refl).
Defined.


End more_instances.
